(** * The Claude Code launcher of claude-code-router

    A shallow embedding of [executeCodeCommand]
    (packages/cli/src/utils/codeCommand.ts) and the properties its
    specification states about it.

    The launcher builds a settings payload, appends [--settings <path>] to
    the argument array it was given, bumps the service reference count,
    re-serialises the parsed arguments into flag syntax, spawns the
    [claude] executable and installs the listeners that end the host
    process when the child fails to start or terminates.

    Layout of the development:
    - [Js]       JavaScript values as far as the launcher inspects them;
    - [Settings] lines 33-85, the settings payload;
    - [Str], [Minimist] the argument parser the launcher calls (npm package
                 minimist, called without options);
    - [Json], [Flags] lines 103-128, the flag translation loop;
    - [Launcher] lines 26-187, effects, listeners and the event loop;
    - [Scenario] a few concrete invocations;
    - [SettingsFacts], [FlagsFacts], [LauncherFacts] the properties the
                 specification states, C1 to C10;
    - [PayloadFacts], [TranslationFacts], [LifecycleFacts] further
                 properties of the code, X1 to X16. *)

From Stdlib Require Import Ascii.
From stdpp Require Import gmap strings list fin_maps pretty.

Set Warnings "-register-all".
Local Open Scope string_scope.
Local Open Scope list_scope.

(** ** JavaScript values *)

Module Js.

(** The values a configuration file, a preset or an environment mapping can
    hold.  A number is kept as the numeric literal that denotes it, since
    the launcher never computes with numbers: it only tests their
    truthiness and prints them.  Objects are finite maps from property
    names to values; strings are sequences of code units. *)
Inductive value : Type :=
| VUndef
| VNull
| VBool (b : bool)
| VNum (lit : string)
| VStr (s : string)
| VArr (items : list value)
| VObj (props : gmap string value).

(** What the launcher needs from the number semantics of the engine:
    whether the number written [lit] is truthy (neither zero nor NaN) and
    how it prints. *)
Record Runtime : Type := {
  number_truthy : string → bool;
  number_to_string : string → string;
}.

Section WithRuntime.
Context (rt : Runtime).

(** ToBoolean. *)
Definition truthy (v : value) : bool :=
  match v with
  | VUndef | VNull => false
  | VBool b => b
  | VNum lit => number_truthy rt lit
  | VStr s => negb (bool_decide (s = ""))
  | VArr _ | VObj _ => true
  end.

(** [a || b]. *)
Definition or_else (a b : value) : value :=
  if truthy a then a else b.

End WithRuntime.

(** A runtime for numbers written in canonical decimal form: they print as
    they are written, and only [0] is falsy. *)
Definition canonical_runtime : Runtime :=
  {| number_truthy := λ lit, negb (bool_decide (lit = "0"));
     number_to_string := id |}.

(** [o.k] for an object given by its property map: a missing property
    reads as [undefined]. *)
Definition prop (o : gmap string value) (k : string) : value :=
  default VUndef (o !! k).

(** [v?.k] for the property names the launcher reads ([StatusLine],
    [claudeCodeSettings], [enabled], [env]): none of them is a built-in
    property of strings or arrays, so only objects answer. *)
Definition get_prop (v : value) (k : string) : value :=
  match v with
  | VObj o => prop o k
  | _ => VUndef
  end.

(** The own enumerable properties copied by an object spread [{...v}]:
    those of an object, the indexed elements of an array or a string,
    nothing for the other values. *)
Definition indexed {A} (f : A → value) (l : list A) : gmap string value :=
  list_to_map (imap (λ i x, (pretty i, f x)) l).

Definition spread (v : value) : gmap string value :=
  match v with
  | VObj o => o
  | VArr items => indexed id items
  | VStr s => indexed (λ c, VStr (String c "")) (String.list_ascii_of_string s)
  | _ => ∅
  end.

(** [{...a, ...b}] on property maps: the properties of [b] win. *)
Definition merge_props (a b : gmap string value) : gmap string value :=
  b ∪ a.

End Js.

Import Js.

(** ** The settings payload (lines 33-85) *)

Module Settings.

Section WithRuntime.
Context (rt : Runtime).

(** Lines 37-39: [Object.assign(env, envOverrides)] when overrides were
    passed.  [env] is the object [createEnvVariables] returned; the overrides
    are a [Record<string, string>]. *)
Definition applyEnvOverrides (env : gmap string value)
    (envOverrides : option (gmap string string)) : gmap string value :=
  match envOverrides with
  | Some ov => merge_props env (VStr <$> ov)
  | None => env
  end.

(** Line 48: [presetConfig?.StatusLine || config?.StatusLine]. *)
Definition statusLineConfig (presetConfig : value) (config : gmap string value) : value :=
  or_else rt (get_prop presetConfig "StatusLine") (prop config "StatusLine").

(** Lines 52-54: the command, with the preset name when there is one (an
    absent or empty name is falsy). *)
Definition statuslineCommand (presetName : option string) : string :=
  match presetName with
  | Some n => if bool_decide (n = "") then "ccr statusline" else "ccr statusline " +:+ n
  | None => "ccr statusline"
  end.

(** Lines 56-60: the synthesised status line. *)
Definition commandStatusLine (command : string) : value :=
  VObj {[ "type" := VStr "command"; "command" := VStr command; "padding" := VNum "0" ]}.

(** Lines 50-61. *)
Definition addStatusLine (presetConfig : value) (config : gmap string value)
    (presetName : option string) (settingsFlag : gmap string value) : gmap string value :=
  if truthy rt (get_prop (statusLineConfig presetConfig config) "enabled")
  then <["statusLine" := commandStatusLine (statuslineCommand presetName)]> settingsFlag
  else settingsFlag.

(** Lines 65-73: [{...settingsFlag, ...claudeCodeSettings,
    env: {...settingsFlag.env, ...claudeCodeSettings.env}}]. *)
Definition mergeSettings (settingsFlag : gmap string value) (claudeCodeSettings : value)
    : gmap string value :=
  <["env" := VObj (merge_props (spread (prop settingsFlag "env"))
                               (spread (get_prop claudeCodeSettings "env")))]>
    (merge_props settingsFlag (spread claudeCodeSettings)).

(** Lines 64-74. *)
Definition mergeClaudeCodeSettings (presetConfig : value)
    (settingsFlag : gmap string value) : gmap string value :=
  let claudeCodeSettings := get_prop presetConfig "claudeCodeSettings" in
  if truthy rt claudeCodeSettings
  then mergeSettings settingsFlag claudeCodeSettings
  else settingsFlag.

(** Lines 78-84: [{...settingsFlag.env, CI, FORCE_COLOR, NODE_NO_READLINE,
    TERM}], the four keys written in this order. *)
Definition nonInteractiveEnv (env : gmap string value) : gmap string value :=
  <["TERM" := VStr "dumb"]>
    (<["NODE_NO_READLINE" := VStr "1"]>
      (<["FORCE_COLOR" := VStr "0"]>
        (<["CI" := VStr "true"]> env))).

(** Lines 77-85. *)
Definition applyNonInteractive (config : gmap string value)
    (settingsFlag : gmap string value) : gmap string value :=
  if truthy rt (prop config "NON_INTERACTIVE_MODE")
  then <["env" := VObj (nonInteractiveEnv (spread (prop settingsFlag "env")))]> settingsFlag
  else settingsFlag.

(** Lines 33-85: the payload that is serialised into the settings file.
    [config] is the value of [readConfigFile()], [env] that of
    [createEnvVariables()]. *)
Definition buildSettingsFlag (config env : gmap string value)
    (presetConfig : value) (envOverrides : option (gmap string string))
    (presetName : option string) : gmap string value :=
  let env := applyEnvOverrides env envOverrides in
  let settingsFlag : gmap string value := {[ "env" := VObj env ]} in
  let settingsFlag := addStatusLine presetConfig config presetName settingsFlag in
  let settingsFlag := mergeClaudeCodeSettings presetConfig settingsFlag in
  applyNonInteractive config settingsFlag.

(** The environment mapping of a payload. *)
Definition envOf (settingsFlag : gmap string value) : gmap string value :=
  spread (prop settingsFlag "env").

End WithRuntime.

End Settings.

(** ** Strings as the parser reads them *)

Module Str.

Definition chars (s : string) : list Ascii.ascii := String.list_ascii_of_string s.
Definition of_chars (l : list Ascii.ascii) : string := String.string_of_list_ascii l.

Definition code (c : Ascii.ascii) : N := Ascii.N_of_ascii c.
Definition between (lo hi : N) (c : Ascii.ascii) : bool :=
  ((lo <=? code c) && (code c <=? hi))%N.

(** [\d], [[A-Za-z]], [[0-9a-f]] without case, [\w], and the characters [.]
    refuses (line terminators). *)
Definition is_digit (c : Ascii.ascii) : bool := between 48 57 c.
Definition is_alpha (c : Ascii.ascii) : bool := between 65 90 c || between 97 122 c.
Definition is_hex (c : Ascii.ascii) : bool :=
  is_digit c || between 65 70 c || between 97 102 c.
Definition is_word (c : Ascii.ascii) : bool :=
  is_alpha c || is_digit c || bool_decide (c = "_"%char).
Definition is_line_end (c : Ascii.ascii) : bool :=
  bool_decide (c = "010"%char) || bool_decide (c = "013"%char).

Definition is_char (c d : Ascii.ascii) : bool := bool_decide (c = d).
Arguments is_char (c d)%_char.

(** The part of [s] after the prefix [p], when [s] starts with it. *)
Fixpoint strip (p s : list Ascii.ascii) : option (list Ascii.ascii) :=
  match p, s with
  | [], _ => Some s
  | a :: p', b :: s' => if is_char a b then strip p' s' else None
  | _ :: _, [] => None
  end.

(** The longest prefix whose characters satisfy [f], and what follows it. *)
Fixpoint span {A} (f : A → bool) (s : list A) : list A * list A :=
  match s with
  | c :: s' => if f c then let '(a, b) := span f s' in (c :: a, b) else ([], s)
  | [] => ([], [])
  end.

(** [key.split('.')]: always at least one piece. *)
Fixpoint split_on (d : Ascii.ascii) (s : list Ascii.ascii) : list (list Ascii.ascii) :=
  match s with
  | [] => [[]]
  | c :: s' =>
      if is_char c d then [] :: split_on d s'
      else match split_on d s' with
           | piece :: pieces => (c :: piece) :: pieces
           | [] => [[c]]
           end
  end.

(** Whether [s] begins with a dash. *)
Definition starts_with_dash (s : string) : bool :=
  match chars s with c :: _ => is_char c "-" | [] => false end.

End Str.

(** ** The argument parser

    [minimist(args)] as the launcher calls it, without options: no declared
    booleans, strings, aliases or defaults.  The definitions follow
    index.js of minimist 1.2.8.  The parser is a library, not part of the
    repository; the launcher below takes it as a parameter, and a property
    that depends on what the parser returns asks that the parameter agrees
    with this model on the arguments at hand.  The model tells apart the
    calls that return, the calls that throw, and the calls it does not
    answer (see [outcome] and [setKey]). *)

Module Minimist.

Import Str.

(** What the parser produces: strings, numbers (kept as the text handed to
    [Number]), booleans, arrays for repeated flags and nested objects for
    dotted keys.  Objects keep their properties in insertion order. *)
Inductive argval : Type :=
| AUndef
| ABool (b : bool)
| ANum (lit : string)
| AStr (s : string)
| AArr (items : list argval)
| AObj (props : list (string * argval)).

Abbreviation props := (list (string * argval)).

Fixpoint get (o : props) (k : string) : option argval :=
  match o with
  | (k', v) :: o' => if bool_decide (k' = k) then Some v else get o' k
  | [] => None
  end.

(** [o[k] = v]: an existing property keeps its place, a new one goes last. *)
Fixpoint set (o : props) (k : string) (v : argval) : props :=
  match o with
  | (k', v') :: o' => if bool_decide (k' = k) then (k, v) :: o' else (k', v') :: set o' k v
  | [] => [(k, v)]
  end.

(** *** Enumeration order

    [Object.entries] lists the array-index keys first, in ascending numeric
    order, then the other keys in insertion order. *)

Fixpoint decimal (acc : N) (s : list Ascii.ascii) : option N :=
  match s with
  | [] => Some acc
  | c :: s' => if is_digit c then decimal (acc * 10 + (code c - 48))%N s' else None
  end.

(** A canonical numeric string below 2^32 - 1. *)
Definition array_index (k : string) : option N :=
  match chars k with
  | [] => None
  | [c] => decimal 0 [c]
  | c :: s =>
      if is_char c "0" then None
      else match decimal 0 (c :: s) with
           | Some n => if (n <? 4294967295)%N then Some n else None
           | None => None
           end
  end.

Fixpoint insert_index {A} (n : N) (x : A) (l : list (N * A)) : list (N * A) :=
  match l with
  | (m, y) :: l' => if (n <? m)%N then (n, x) :: l else (m, y) :: insert_index n x l'
  | [] => [(n, x)]
  end.

Definition index_entries {A} (o : list (string * A)) : list (N * (string * A)) :=
  foldr (λ e acc, match array_index e.1 with
                  | Some n => insert_index n e acc
                  | None => acc
                  end) [] o.

Definition Object_entries {A} (o : list (string * A)) : list (string * A) :=
  (snd <$> index_entries o)
  ++ filter (λ e, array_index e.1 = None) o.

(** *** The tests on arguments *)

(** [isNumber]: a hexadecimal literal ([0x] and hexadecimal digits, in
    either case), or an optional sign, then digits with an optional
    fraction or a dot with digits, then an optional exponent ([e], an
    optional sign, digits). *)
Definition is_sign (c : Ascii.ascii) : bool := is_char c "+" || is_char c "-".

Definition nonempty_all (f : Ascii.ascii → bool) (s : list Ascii.ascii) : bool :=
  match s with [] => false | _ => forallb f s end.

Definition is_hex_literal (s : list Ascii.ascii) : bool :=
  match s with
  | z :: x :: s' => is_char z "0" && (is_char x "x" || is_char x "X") && nonempty_all is_hex s'
  | _ => false
  end.

Definition is_exponent_opt (s : list Ascii.ascii) : bool :=
  match s with
  | [] => true
  | e :: s' =>
      is_char e "e" &&
      match s' with
      | c :: s'' => if is_sign c then nonempty_all is_digit s'' else nonempty_all is_digit s'
      | [] => false
      end
  end.

Definition is_decimal_literal (s : list Ascii.ascii) : bool :=
  let s := match s with c :: s' => if is_sign c then s' else s | [] => s end in
  let '(int, rest) := span is_digit s in
  match int, rest with
  | _ :: _, dot :: rest' =>
      if is_char dot "." then is_exponent_opt (span is_digit rest').2
      else is_exponent_opt rest
  | _ :: _, [] => true
  | [], dot :: rest' =>
      is_char dot "." &&
      match span is_digit rest' with
      | (_ :: _, rest'') => is_exponent_opt rest''
      | ([], _) => false
      end
  | [], [] => false
  end.

Definition isNumber (x : string) : bool :=
  is_hex_literal (chars x) || is_decimal_literal (chars x).

(** [/^(-|--)[^-]/]: one or two dashes and then something else. *)
Definition looks_like_flag (next : string) : bool :=
  match chars next with
  | d :: c :: s =>
      is_char d "-" &&
      (negb (is_char c "-")
       || match s with c' :: _ => negb (is_char c' "-") | [] => false end)
  | _ => false
  end.

(** The test for a numeric tail in a group of short flags.  Its pattern
    (an optional minus, digits, an optional fraction, an optional exponent,
    end of text) is not anchored on the left, so it asks that the text
    ends with a digit, or with a digit and a dot. *)
Definition ends_numeric (next : list Ascii.ascii) : bool :=
  match rev next with
  | c :: s => is_digit c
              || (is_char c "." && match s with d :: _ => is_digit d | [] => false end)
  | [] => false
  end.

(** The text [.+] captures at the start of [s]: everything up to the first
    line terminator. *)
Definition dot_plus (s : list Ascii.ascii) : list Ascii.ascii :=
  (span (λ c, negb (is_line_end c)) s).1.

(** *** Storing a parsed flag *)

(** The names every object inherits.  The parser looks flags up in plain
    objects, so a flag with one of these names is found there although
    nobody declared it. *)
Definition inherited_names : list string :=
  [ "constructor"; "__proto__"; "hasOwnProperty"; "isPrototypeOf";
    "propertyIsEnumerable"; "toLocaleString"; "toString"; "valueOf";
    "__defineGetter__"; "__defineSetter__"; "__lookupGetter__"; "__lookupSetter__" ].

Definition inherited (k : string) : bool := bool_decide (k ∈ inherited_names).

(** [isConstructorOrProto]. *)
Definition isConstructorOrProto (k : string) : bool :=
  bool_decide (k = "constructor") || bool_decide (k = "__proto__").

(** What a call of the parser comes to.  [Unanswered] marks the arguments
    this model makes no statement about: there the parser reaches objects
    that [argval] does not describe (a property stored on an array, or on
    one of the functions every object inherits). *)
Inductive outcome (A : Type) : Type :=
| Returns (a : A)
| Throws
| Unanswered.

Arguments Returns {A} a.
Arguments Throws {A}.
Arguments Unanswered {A}.

#[global] Instance outcome_ret : MRet outcome := λ A a, Returns a.
#[global] Instance outcome_bind : MBind outcome := λ A B k m,
  match m with
  | Returns a => k a
  | Throws => Throws
  | Unanswered => Unanswered
  end.

(** The last step of [setKey]: a free or boolean slot takes the value, an
    array grows, anything else becomes a two-element array. *)
Definition store (o : props) (lastKey : string) (v : argval) : props :=
  match get o lastKey with
  | None | Some AUndef | Some (ABool _) => set o lastKey v
  | Some (AArr items) => set o lastKey (AArr (items ++ [v]))
  | Some old => set o lastKey (AArr [old; v])
  end.

(** [setKey] once the path has reached a string, a number or a boolean.
    One of the two guarded names ends the call quietly.  Setting the last
    key throws a TypeError (a property set on a primitive, in strict mode).
    A key before the last is read from the primitive first, and what comes
    back (nothing, or a property or method of the primitive's prototype) is
    not modelled. *)
Definition on_primitive (o : props) (keys : list string) : outcome props :=
  match keys with
  | [] => Returns o
  | key :: keys' =>
      if isConstructorOrProto key then Returns o
      else match keys' with
           | [] => Throws
           | _ :: _ => Unanswered
           end
  end.

(** [setKey(obj, keys, value)].  [Unanswered] for a path through an array,
    which may carry properties of its own, and for a path through an
    inherited name other than the two the parser guards. *)
Fixpoint setKey (o : props) (keys : list string) (v : argval) : outcome props :=
  match keys with
  | [] => Returns o
  | [lastKey] =>
      if isConstructorOrProto lastKey then Returns o
      else if inherited lastKey then Unanswered
      else Returns (store o lastKey v)
  | key :: keys' =>
      if isConstructorOrProto key then Returns o
      else if inherited key then Unanswered
      else match get o key with
           | None | Some AUndef => o' ← setKey [] keys' v; Returns (set o key (AObj o'))
           | Some (AObj inner) => o' ← setKey inner keys' v; Returns (set o key (AObj o'))
           | Some (AArr _) => Unanswered
           | Some (ABool _ | ANum _ | AStr _) => on_primitive o keys'
           end
  end.

(** The value [setArg] stores: a numeric string becomes a number. *)
Definition coerce (val : argval) : argval :=
  match val with
  | AStr s => if isNumber s then ANum s else AStr s
  | _ => val
  end.

(** [setArg(key, val)].  A flag named like an inherited property makes the
    alias lookup, which follows [setKey], throw a TypeError; what [setKey]
    did before is lost with it. *)
Definition setArg (argv : props) (key : list Ascii.ascii) (val : argval) : outcome props :=
  if inherited (of_chars key) then Throws
  else setKey argv (of_chars <$> split_on "." key) (coerce val).

(** [argv._.push(x)]. *)
Definition push_positional (argv : props) (x : argval) : props :=
  match get argv "_" with
  | Some (AArr items) => set argv "_" (AArr (items ++ [x]))
  | _ => argv
  end.

(** *** The argument forms *)

(** [--key=value]: the pattern asks for an equals sign after at least one
    character that [.] accepts; key and value are then split at the first
    equals sign, and a key that would be empty makes the parser throw. *)
Definition long_with_value (r : list Ascii.ascii) : bool :=
  match dot_plus r with
  | _ :: s => bool_decide ("="%char ∈ s)
  | [] => false
  end.

Definition parse_long_with_value (argv : props) (r : list Ascii.ascii) : outcome props :=
  match span (λ c, negb (is_char c "=")) r with
  | ((_ :: _) as key, _ :: value) => setArg argv key (AStr (of_chars value))
  | _ => Throws
  end.

(** A group of short flags [-abc].  [letters] are the characters but the
    last, [tail] is the argument from the current letter on.  The result
    tells whether the loop broke out, in which case the last character is
    not a flag of its own. *)
Fixpoint short_letters (argv : props) (tail : list Ascii.ascii) (letters : nat)
    : outcome (props * bool) :=
  match letters, tail with
  | S letters', letter :: next =>
      if bool_decide (next = ["-"%char]) then
        argv' ← setArg argv [letter] (AStr "-"); short_letters argv' next letters'
      else if is_alpha letter && match next with c :: _ => is_char c "=" | [] => false end then
        argv' ← setArg argv [letter] (AStr (of_chars (drop 1 next))); Returns (argv', true)
      else if is_alpha letter && ends_numeric next then
        argv' ← setArg argv [letter] (AStr (of_chars next)); Returns (argv', true)
      else if match letters', next with
              | S _, c :: _ => negb (is_word c)
              | _, _ => false
              end then
        argv' ← setArg argv [letter] (AStr (of_chars next)); Returns (argv', true)
      else
        argv' ← setArg argv [letter] (ABool true); short_letters argv' next letters'
  | _, _ => Returns (argv, false)
  end.

(** [--key] that is neither [--key=value] nor [--no-key]; [r] is the
    argument without its dashes, and starts with a character [.] accepts. *)
Definition parse_long (argv : props) (r : list Ascii.ascii) (next : option string)
    : outcome (props * bool) :=
  match next with
  | Some n =>
      if negb (looks_like_flag n) then
        argv' ← setArg argv (dot_plus r) (AStr n); Returns (argv', true)
      else
        argv' ← setArg argv (dot_plus r) (ABool true); Returns (argv', false)
  | None =>
      argv' ← setArg argv (dot_plus r) (ABool true); Returns (argv', false)
  end.

(** [-abc], with the value that may follow the last letter. *)
Definition parse_short (argv : props) (body : list Ascii.ascii) (next : option string)
    : outcome (props * bool) :=
  '(argv', broken) ← short_letters argv body (pred (length body));
  match last body with
  | Some key =>
      if broken || is_char key "-" then Returns (argv', false)
      else match next with
           | Some n =>
               if negb (bool_decide (n = "")) && negb (looks_like_flag n) then
                 argv'' ← setArg argv' [key] (AStr n); Returns (argv'', true)
               else
                 argv'' ← setArg argv' [key] (ABool true); Returns (argv'', false)
           | None =>
               argv'' ← setArg argv' [key] (ABool true); Returns (argv'', false)
           end
  | None => Returns (argv', false)
  end.

(** Which form an argument has, in the order the parser tries them. *)
Inductive form : Type :=
| LongWithValue (r : list Ascii.ascii)
| LongNegated (key : list Ascii.ascii)
| Long (r : list Ascii.ascii)
| Short (body : list Ascii.ascii)
| Positional.

Definition starts_plain (s : list Ascii.ascii) : bool :=
  match s with c :: _ => negb (is_line_end c) | [] => false end.

Definition classify (arg : string) : form :=
  match strip ["-"; "-"]%char (chars arg) with
  | Some r =>
      if long_with_value r then LongWithValue r
      else match strip ["n"; "o"; "-"]%char r with
           | Some k => if starts_plain k then LongNegated (dot_plus k)
                       else if starts_plain r then Long r else Positional
           | None => if starts_plain r then Long r else Positional
           end
  | None =>
      match chars arg with
      | d :: c :: s => if is_char d "-" && negb (is_char c "-") then Short (c :: s)
                       else Positional
      | _ => Positional
      end
  end.

(** One turn of the main loop on [arg], with [next] the argument after it
    if there is one.  The boolean tells whether [next] was consumed. *)
Definition parse_arg (argv : props) (arg : string) (next : option string)
    : outcome (props * bool) :=
  match classify arg with
  | LongWithValue r => argv' ← parse_long_with_value argv r; Returns (argv', false)
  | LongNegated key => argv' ← setArg argv key (ABool false); Returns (argv', false)
  | Long r => parse_long argv r next
  | Short body => parse_short argv body next
  | Positional => Returns (push_positional argv (coerce (AStr arg)), false)
  end.

(** The main loop. *)
Fixpoint parse_args (argv : props) (args : list string) : outcome props :=
  match args with
  | [] => Returns argv
  | arg :: rest =>
      '(argv', consumed) ← parse_arg argv arg (head rest);
      match rest with
      | _ :: rest' => if consumed : bool then parse_args argv' rest' else parse_args argv' rest
      | [] => Returns argv'
      end
  end.

(** Everything after a first [--] is positional, as it stands. *)
Definition split_at_double_dash (args : list string) : list string * list string :=
  let '(flags, rest) := span (λ a, negb (bool_decide (a = "--"))) args in
  (flags, drop 1 rest).

(** The whole call, with its three outcomes. *)
Definition parse (args : list string) : outcome props :=
  let '(args, notFlags) := split_at_double_dash args in
  argv ← parse_args [("_", AArr [])] args;
  Returns (foldl (λ argv k, push_positional argv (AStr k)) argv notFlags).

(** Whether the model says what the parser does with [args]. *)
Definition answers (args : list string) : bool :=
  match parse args with
  | Unanswered => false
  | _ => true
  end.

(** [minimist(args)] where the model answers: the object returned, or
    [None] for a throw.  Where [answers args] is [false] the [None] given
    here says nothing about the parser. *)
Definition minimist (args : list string) : option props :=
  match parse args with
  | Returns argv => Some argv
  | Throws | Unanswered => None
  end.

End Minimist.

(** ** JSON.stringify on parsed values *)

Module Json.

Import Str Minimist.

Definition dquote : Ascii.ascii := Ascii.ascii_of_N 34.
Definition backslash : Ascii.ascii := Ascii.ascii_of_N 92.

Definition hex_digit (n : N) : Ascii.ascii :=
  Ascii.ascii_of_N (if (n <? 10)%N then 48 + n else 87 + n).

(** QuoteJSONString, one code unit at a time. *)
Definition escape (c : Ascii.ascii) : list Ascii.ascii :=
  let n := code c in
  if is_char c dquote then [backslash; dquote]
  else if is_char c backslash then [backslash; backslash]
  else if (n =? 8)%N then [backslash; "b"%char]
  else if (n =? 9)%N then [backslash; "t"%char]
  else if (n =? 10)%N then [backslash; "n"%char]
  else if (n =? 12)%N then [backslash; "f"%char]
  else if (n =? 13)%N then [backslash; "r"%char]
  else if (n <? 32)%N then
    [backslash; "u"; "0"; "0"; hex_digit (n / 16); hex_digit (n mod 16)]%char
  else [c].

Definition quote (s : string) : string :=
  of_chars (dquote :: concat (escape <$> chars s) ++ [dquote]).

Fixpoint join (sep : string) (l : list string) : string :=
  match l with
  | [] => ""
  | [x] => x
  | x :: l' => x +:+ sep +:+ join sep l'
  end.

Section WithRuntime.
Context (rt : Runtime).

(** The JSON text of a value; [undefined] has none.  In an array
    [undefined] prints as [null], in an object its property is left out. *)
Fixpoint stringify (v : argval) : option string :=
  match v with
  | AUndef => None
  | ABool b => Some (if b then "true" else "false")
  | ANum lit => Some (number_to_string rt lit)
  | AStr s => Some (quote s)
  | AArr items =>
      Some ("[" +:+ join "," ((λ x, default "null" (stringify x)) <$> items) +:+ "]")
  | AObj o =>
      let members := (λ e : string * argval, (e.1, stringify e.2)) <$> o in
      Some ("{" +:+ join "," (omap (λ e : string * option string,
                                      (λ t, quote e.1 +:+ ":" +:+ t) <$> e.2)
                                   (Object_entries members)) +:+ "}")
  end.

(** [JSON.stringify(v)] where a string is wanted, as in a template. *)
Definition JSON_stringify (v : argval) : string :=
  default "undefined" (stringify v).

End WithRuntime.

End Json.

(** ** The flag translation (lines 103-128) *)

Module Flags.

Import Minimist Json.

Section WithRuntime.
Context (rt : Runtime).

(** Line 109. *)
Definition prefix (argsObjKey : string) : string :=
  if bool_decide (String.length argsObjKey = 1) then "-" else "--".

(** Line 122: a string goes as it is, anything else as its JSON text. *)
Definition valueToken (argsObjValue : argval) : string :=
  match argsObjValue with
  | AStr s => s
  | _ => JSON_stringify rt argsObjValue
  end.

(** [v !== undefined]. *)
Definition defined (v : argval) : bool :=
  match v with AUndef => false | _ => true end.

(** Lines 108-127, the body of the loop: what one entry pushes onto
    [argsArr]. *)
Definition pushFlag (nonInteractive : bool) (argsArr : list string)
    (entry : string * argval) : list string :=
  let '(argsObjKey, argsObjValue) := entry in
  if bool_decide (argsObjKey ≠ "_") && defined argsObjValue then
    match argsObjValue with
    | ABool true => argsArr ++ [prefix argsObjKey +:+ argsObjKey]
    | ABool false => argsArr
    | _ =>
        if nonInteractive then
          (argsArr ++ [prefix argsObjKey +:+ argsObjKey]) ++ [valueToken argsObjValue]
        else
          argsArr ++ [prefix argsObjKey +:+ argsObjKey +:+ " " +:+ JSON_stringify rt argsObjValue]
    end
  else argsArr.

(** Lines 104-128: the loop over the entries. *)
Definition translateEntries (nonInteractive : bool) (entries : list (string * argval))
    : list string :=
  foldl (pushFlag nonInteractive) [] entries.

(** Lines 103-128 after parsing: [argsArr] for a parsed [argsObj]. *)
Definition translate (nonInteractive : bool) (argsObj : props) : list string :=
  translateEntries nonInteractive (Object_entries argsObj).

End WithRuntime.

(** The values the loop prints: everything but booleans and [undefined]. *)
Definition carries_value (v : argval) : bool :=
  match v with AUndef | ABool _ => false | _ => true end.

End Flags.

(** ** The launcher (lines 26-187) *)

Module Launcher.

Import Settings.

(** *** What surrounds the launcher *)

(** [stdioConfig]: ["inherit"] or [["pipe", "pipe", "inherit"]]. *)
Inductive stdio : Type := Inherit | PipePipeInherit.

(** The arguments of one call of [spawn]. *)
Record SpawnCall : Type := {
  command : value;
  argv : list string;
  env : gmap string string;
  stdioConfig : stdio;
  shell : bool;
}.

(** The child process as far as the launcher looks at it: whether
    [claudeProcess.stdin] and [claudeProcess.stdout] are there. *)
Record Child : Type := { stdin : bool; stdout : bool }.

(** What the launcher does to the outside, in the order it does it. *)
Inductive effect : Type :=
| WriteSettings (settingsFlag : gmap string value)
| IncrementReferenceCount
| DecrementReferenceCount
| CloseService
| Spawn (call : SpawnCall)
| PipeStdinToChild
| EndChildStdin
| PipeChildStdoutToStdout
| OpenSync (path : string)
| WriteSync (fd : Z) (chunk : string)
| FsyncSync (fd : Z)
| CloseSync (fd : Z)
| ConsoleError (message : list string)
| ConsoleLog (message : list string)
| ProcessExit (code : Z)
| UncaughtException.

(** The collaborators and the process state one invocation meets.
    [readConfigFile], [createEnvVariables] and [getSettingsPath] are defined
    elsewhere in the repository and are parameters here: each stands for the
    value the call resolves to, [createEnvVariables] answering with an object
    of its own (not [process.env]) and [getSettingsPath] with the path of the
    file it wrote the payload to.  [minimist], [spawn] and [openSync] answer
    [None] when they throw.  The calls the listeners make on the output file
    ([fs.writeSync], [fs.fsyncSync], [fs.closeSync]) throw when the system
    call fails, and whether one does may change from call to call:
    [fs_throws n e] tells it for the call [e] made when [n] effects came
    before it. *)
Record World : Type := {
  runtime : Runtime;
  readConfigFile : gmap string value;
  createEnvVariables : gmap string value;
  getSettingsPath : gmap string value → string;
  process_env : gmap string string;
  minimist : list string → option Minimist.props;
  spawn : SpawnCall → option Child;
  openSync : string → option Z;
  fs_throws : nat → effect → bool;
}.

(** The listeners the launcher installs, named by event and source line. *)
Inductive listener : Type :=
| OnStdinEnd                  (* line 147 *)
| OnStdoutData (outputFd : Z) (* line 160 *)
| OnCloseOutput (outputFd : Z) (* line 164 *)
| OnError                     (* line 173 *)
| OnClose.                    (* line 182 *)

(** The objects the caller passed by reference. *)
Record Caller : Type := {
  args : list string;
  presetConfig : value;
  envOverrides : option (gmap string string);
}.

(** The host process: the caller's objects, what happened so far, the
    listeners installed, and whether [process.exit] was called. *)
Record Host : Type := {
  caller : Caller;
  effects : list effect;
  listeners : list listener;
  exited : bool;
}.

(** *** Stateful code that may throw *)

Definition M (A : Type) : Type := Host → option A * Host.

#[global] Instance M_ret : MRet M := λ A a h, (Some a, h).
#[global] Instance M_bind : MBind M := λ A B f m h,
  match m h with
  | (Some a, h') => f a h'
  | (None, h') => (None, h')
  end.

Definition throw {A} : M A := λ h, (None, h).

Definition perform (e : effect) : M unit := λ h,
  (Some tt, {| caller := caller h; effects := effects h ++ [e];
               listeners := listeners h; exited := exited h |}).

(** [emitter.on(event, listener)]. *)
Definition on (l : listener) : M unit := λ h,
  (Some tt, {| caller := caller h; effects := effects h;
               listeners := listeners h ++ [l]; exited := exited h |}).

(** [args.push(...)], on the caller's array. *)
Definition args_push (items : list string) : M unit := λ h,
  (Some tt, {| caller := {| args := args (caller h) ++ items;
                            presetConfig := presetConfig (caller h);
                            envOverrides := envOverrides (caller h) |};
               effects := effects h; listeners := listeners h; exited := exited h |}).

Definition read {A} (f : Caller → A) : M A := λ h, (Some (f (caller h)), h).

(** [process.exit(code)] does not return. *)
Definition process_exit (code : Z) : M unit := λ h,
  (None, {| caller := caller h; effects := effects h ++ [ProcessExit code];
            listeners := listeners h; exited := true |}).

(** A call that may throw. *)
Definition call {A} (e : effect) (result : option A) : M A :=
  perform e;; from_option mret throw result.

Definition when (b : bool) (m : M unit) : M unit := if b then m else mret tt.

(** A call on the output file, which throws when the world says so. *)
Definition fs (w : World) (e : effect) : M unit := λ h,
  call e (if fs_throws w (length (effects h)) e then None else Some tt) h.

(** *** executeCodeCommand *)

(** Line 95: [config?.CLAUDE_PATH || process.env.CLAUDE_PATH || "claude"]. *)
Definition claudePath (w : World) : value :=
  or_else (runtime w)
    (or_else (runtime w) (prop (readConfigFile w) "CLAUDE_PATH")
             (from_option VStr VUndef (process_env w !! "CLAUDE_PATH")))
    (VStr "claude").

(** [config.NON_INTERACTIVE_MODE], as a condition. *)
Definition nonInteractive (w : World) : bool :=
  truthy (runtime w) (prop (readConfigFile w) "NON_INTERACTIVE_MODE").

(** Lines 129-141: [spawn] throws a TypeError when the command is not a
    string; otherwise the world decides. *)
Definition do_spawn (w : World) (c : SpawnCall) : M Child :=
  call (Spawn c) (match command c with VStr _ => spawn w c | _ => None end).

(** Lines 154-171. *)
Definition forwardStdout (w : World) : M unit :=
  match process_env w !! "CCR_OUTPUT_FILE" with
  | Some outputFilePath =>
      if bool_decide (outputFilePath = "") then perform PipeChildStdoutToStdout
      else
        outputFd ← call (OpenSync outputFilePath) (openSync w outputFilePath);
        on (OnStdoutData outputFd);;
        on (OnCloseOutput outputFd)
  | None => perform PipeChildStdoutToStdout
  end.

(** Lines 33-87: the payload and the path it is stored under, for the
    objects the caller passed. *)
Definition settingsFlag (w : World) (presetName : option string) (c : Caller)
    : gmap string value :=
  buildSettingsFlag (runtime w) (readConfigFile w) (createEnvVariables w)
    (presetConfig c) (envOverrides c) presetName.

Definition settingsFile (w : World) (presetName : option string) (c : Caller) : string :=
  getSettingsPath w (settingsFlag w presetName c).

(** The whole function, lines 26-187.  The caller's objects are in the
    host state, since [args] is written to (line 89).  A result [None] is a
    throw, that is, the promise the function returns is rejected.
    [joinedArgs] (line 97) is computed and never used; it is left out. *)
Definition executeCodeCommand (w : World) (presetName : option string) : M unit :=
  c ← read id;
  perform (WriteSettings (settingsFlag w presetName c));;
  args_push ["--settings"; settingsFile w presetName c];;
  perform IncrementReferenceCount;;
  let stdioConfig := if nonInteractive w then PipePipeInherit else Inherit in
  args ← read args;
  argsObj ← from_option mret throw (minimist w args);
  let argsArr := Flags.translate (runtime w) (nonInteractive w) argsObj in
  claudeProcess ← do_spawn w {| command := claudePath w; argv := argsArr;
                                env := process_env w; stdioConfig := stdioConfig;
                                shell := negb (nonInteractive w) |};
  when (nonInteractive w && stdin claudeProcess)
       (perform PipeStdinToChild;; on OnStdinEnd);;
  when (nonInteractive w && stdout claudeProcess) (forwardStdout w);;
  on OnError;;
  on OnClose.

(** *** Events *)

Inductive event : Type :=
| StdinEnd
| StdoutData (chunk : string)
| ChildError (message : string)
| ChildClose (code : option Z).

(** [code || 0] for [code : number | null]. *)
Definition exitCode (code : option Z) : Z :=
  match code with
  | Some c => if bool_decide (c = 0%Z) then 0%Z else c
  | None => 0%Z
  end.

Definition installHint : string :=
  "Make sure Claude Code is installed: npm install -g @anthropic-ai/claude-code".

(** The body of each listener, run when its event arrives. *)
Definition body (w : World) (l : listener) (ev : event) : M unit :=
  match l, ev with
  | OnStdinEnd, StdinEnd => perform EndChildStdin
  | OnStdoutData outputFd, StdoutData chunk =>
      fs w (WriteSync outputFd chunk);; fs w (FsyncSync outputFd)
  | OnCloseOutput outputFd, ChildClose _ => fs w (CloseSync outputFd)
  | OnError, ChildError message =>
      perform (ConsoleError ["Failed to start claude command:"; message]);;
      perform (ConsoleLog [installHint]);;
      perform DecrementReferenceCount;;
      process_exit 1
  | OnClose, ChildClose code =>
      perform DecrementReferenceCount;;
      perform CloseService;;
      process_exit (exitCode code)
  | _, _ => mret tt
  end.

(** An exception nobody catches ends the host at once: nothing in the
    launcher catches what a listener throws, and an ['error'] event nobody
    listens for is thrown as well. *)
Definition crash (h : Host) : Host :=
  {| caller := caller h; effects := effects h ++ [UncaughtException];
     listeners := listeners h; exited := true |}.

(** The listeners of an event run in the order they were installed, until
    one of them ends the process, by [process.exit] or by throwing. *)
Fixpoint emit (w : World) (ls : list listener) (ev : event) (h : Host) : Host :=
  match ls with
  | [] => h
  | l :: ls' =>
      if exited h then h
      else match body w l ev h with
           | (Some _, h') => emit w ls' ev h'
           | (None, h') => if exited h' then h' else crash h'
           end
  end.

Definition listens_for_error (l : listener) : bool :=
  match l with OnError => true | _ => false end.

Definition deliver (w : World) (h : Host) (ev : event) : Host :=
  if exited h then h
  else match ev with
       | ChildError _ =>
           if existsb listens_for_error (listeners h) then emit w (listeners h) ev h
           else crash h
       | _ => emit w (listeners h) ev h
       end.

(** *** One invocation and what follows it *)

Definition start (c : Caller) : Host :=
  {| caller := c; effects := []; listeners := []; exited := false |}.

Definition launch (w : World) (presetName : option string) (c : Caller) : option unit * Host :=
  executeCodeCommand w presetName (start c).

Definition run (w : World) (presetName : option string) (c : Caller)
    (events : list event) : Host :=
  foldl (deliver w) (launch w presetName c).2 events.

(** The effects that concern the life of the host and of the service. *)
Definition is_lifecycle (e : effect) : bool :=
  match e with
  | IncrementReferenceCount | DecrementReferenceCount | CloseService
  | ProcessExit _ | UncaughtException => true
  | _ => false
  end.

(** The listeners on the streams and on the output file, as opposed to the
    two that end the host. *)
Definition is_stream_listener (l : listener) : bool :=
  match l with OnError | OnClose => false | _ => true end.

(** The events of the streams, as opposed to those of the child. *)
Definition is_stream_event (ev : event) : bool :=
  match ev with StdinEnd | StdoutData _ => true | _ => false end.

(** What the listeners on the streams and on the output file do on [ev]
    when none of their calls throws. *)
Definition stream_effects (ls : list listener) (ev : event) : list effect :=
  l ← ls;
  match l, ev with
  | OnStdinEnd, StdinEnd => [EndChildStdin]
  | OnStdoutData outputFd, StdoutData chunk => [WriteSync outputFd chunk; FsyncSync outputFd]
  | OnCloseOutput outputFd, ChildClose _ => [CloseSync outputFd]
  | _, _ => []
  end.

(** How often the reference count went up and down. *)
Definition is_increment (e : effect) : bool :=
  match e with IncrementReferenceCount => true | _ => false end.
Definition is_decrement (e : effect) : bool :=
  match e with DecrementReferenceCount => true | _ => false end.

Definition increments (h : Host) : nat := length (filter is_increment (effects h)).
Definition decrements (h : Host) : nat := length (filter is_decrement (effects h)).

(** Lines 129-141: the arguments [spawn] is called with, for a parsed
    [argsObj]. *)
Definition spawnCall (w : World) (argsObj : Minimist.props) : SpawnCall :=
  {| command := claudePath w;
     argv := Flags.translate (runtime w) (nonInteractive w) argsObj;
     env := process_env w;
     stdioConfig := if nonInteractive w then PipePipeInherit else Inherit;
     shell := negb (nonInteractive w) |}.

Definition is_spawn (e : effect) : bool :=
  match e with Spawn _ => true | _ => false end.

(** The effects of [executeCodeCommand] itself, as opposed to those of its
    listeners. *)
Definition is_setup_effect (e : effect) : bool :=
  match e with
  | WriteSettings _ | IncrementReferenceCount | Spawn _
  | PipeStdinToChild | PipeChildStdoutToStdout | OpenSync _ => true
  | _ => false
  end.

(** The effects on the standard streams and on the output file. *)
Definition is_stream_effect (e : effect) : bool :=
  match e with
  | PipeStdinToChild | EndChildStdin | PipeChildStdoutToStdout
  | OpenSync _ | WriteSync _ _ | FsyncSync _ | CloseSync _ => true
  | _ => false
  end.

(** What only the two closing listeners (lines 173-186) do. *)
Definition is_closing_effect (e : effect) : bool :=
  match e with
  | ConsoleError _ | ConsoleLog _ | DecrementReferenceCount | CloseService
  | ProcessExit _ => true
  | _ => false
  end.

(** How far a host has come: still running, ended by an exception nobody
    caught, or ended by one of the two closing listeners. *)
Inductive ending : Type :=
| Running
| Crashed
| ExitedOnError
| ExitedOnClose (code : Z).

(** The lifecycle effects each ending adds to those of the launch. *)
Definition ending_effects (e : ending) : list effect :=
  match e with
  | Running => []
  | Crashed => [UncaughtException]
  | ExitedOnError => [DecrementReferenceCount; ProcessExit 1]
  | ExitedOnClose code => [DecrementReferenceCount; CloseService; ProcessExit code]
  end.

Definition has_ended (e : ending) : bool :=
  match e with Running => false | _ => true end.

Definition by_closing_listener (e : ending) : bool :=
  match e with ExitedOnError | ExitedOnClose _ => true | _ => false end.

End Launcher.

(** ** Sample invocations *)

Module Scenario.

Import Launcher.

(** A child that starts, with the streams its [stdio] asks for. *)
Definition started (call : SpawnCall) : option Child :=
  Some match stdioConfig call with
       | PipePipeInherit => {| stdin := true; stdout := true |}
       | Inherit => {| stdin := false; stdout := false |}
       end.

(** A world in which the calls on the output file never throw, and whose
    parser is the model of [Minimist]; the requests below stay within the
    arguments that model answers. *)
Definition world (config : gmap string value) (process_env : gmap string string)
    (openSync : string → option Z) : World :=
  {| runtime := canonical_runtime;
     readConfigFile := config;
     createEnvVariables := {[ "ANTHROPIC_BASE_URL" := VStr "http://127.0.0.1:3456" ]};
     getSettingsPath := λ _, "/tmp/claude-code-router/ccr-settings.json";
     process_env := process_env;
     minimist := Minimist.minimist;
     spawn := started;
     openSync := openSync;
     fs_throws := λ _ _, false |}.

(** A terminal session. *)
Definition interactive : World :=
  world ∅ {[ "PATH" := "/usr/bin" ]} (λ _, Some 3%Z).

(** An automation run that forwards the child's output to its own. *)
Definition automation : World :=
  world {[ "NON_INTERACTIVE_MODE" := VBool true ]} {[ "PATH" := "/usr/bin" ]} (λ _, Some 3%Z).

(** An automation run that appends the child's output to a file. *)
Definition automation_to_file : World :=
  world {[ "NON_INTERACTIVE_MODE" := VBool true ]}
        {[ "CCR_OUTPUT_FILE" := "/var/log/ccr/out.jsonl" ]} (λ _, Some 3%Z).

(** The same, with an output file in a directory that does not exist:
    [openSync] throws. *)
Definition unwritable_output : World :=
  world {[ "NON_INTERACTIVE_MODE" := VBool true ]}
        {[ "CCR_OUTPUT_FILE" := "/nonexistent/out.jsonl" ]} (λ _, None).

(** An automation run that appends the child's output to something that
    cannot be flushed (a FIFO, or [/dev/null]): the file opens and takes the
    writes, and every [fsyncSync] throws. *)
Definition unflushable_output : World :=
  {| runtime := canonical_runtime;
     readConfigFile := {[ "NON_INTERACTIVE_MODE" := VBool true ]};
     createEnvVariables := {[ "ANTHROPIC_BASE_URL" := VStr "http://127.0.0.1:3456" ]};
     getSettingsPath := λ _, "/tmp/claude-code-router/ccr-settings.json";
     process_env := {[ "CCR_OUTPUT_FILE" := "/dev/null" ]};
     minimist := Minimist.minimist;
     spawn := started;
     openSync := λ _, Some 3%Z;
     fs_throws := λ _ e, match e with FsyncSync _ => true | _ => false end |}.

Definition request (args : list string) : Caller :=
  {| args := args; presetConfig := VUndef; envOverrides := None |}.

End Scenario.

(** * Properties *)

(** ** The settings payload *)

Module SettingsFacts.

Import Settings.

Lemma lookup_merge_props (a b : gmap string value) k :
  merge_props a b !! k = match b !! k with Some v => Some v | None => a !! k end.
Proof.
  unfold merge_props. rewrite lookup_union.
  destruct (b !! k), (a !! k); reflexivity.
Qed.

Lemma envOf_insert_env (settingsFlag env : gmap string value) :
  envOf (<["env" := VObj env]> settingsFlag) = env.
Proof. unfold envOf, prop. by rewrite lookup_insert_eq. Qed.

Section WithRuntime.
Context (rt : Runtime).

(** C2.  Merging the nested settings of a preset into the payload: every
    top-level key other than [env] is taken from the preset when the preset
    has it and from the payload otherwise; in the environment every key of
    the preset's environment overrides and every other key of the base
    environment survives.  Base [{A:1, B:2}] and preset environment
    [{B:3, C:4}] give [{A:1, B:3, C:4}]. *)
Theorem claudeCodeSettings_deep_merge
    (presetConfig : value) (settingsFlag claudeCodeSettings : gmap string value) :
  get_prop presetConfig "claudeCodeSettings" = VObj claudeCodeSettings →
  let merged := mergeClaudeCodeSettings rt presetConfig settingsFlag in
  (∀ k, k ≠ "env" →
     merged !! k = match claudeCodeSettings !! k with
                   | Some v => Some v
                   | None => settingsFlag !! k
                   end)
  ∧ (∀ k, envOf merged !! k = match envOf claudeCodeSettings !! k with
                              | Some v => Some v
                              | None => envOf settingsFlag !! k
                              end)
  ∧ envOf (mergeClaudeCodeSettings rt
             (VObj {[ "claudeCodeSettings" :=
                        VObj {[ "env" := VObj {[ "B" := VNum "3"; "C" := VNum "4" ]} ]} ]})
             {[ "env" := VObj {[ "A" := VNum "1"; "B" := VNum "2" ]} ]})
    = {[ "A" := VNum "1"; "B" := VNum "3"; "C" := VNum "4" ]}.
Proof.
  intros Hccs merged. subst merged.
  unfold mergeClaudeCodeSettings. rewrite Hccs. cbn [truthy].
  unfold mergeSettings. split; [|split].
  - intros k Hk. rewrite lookup_insert_ne by done.
    apply lookup_merge_props.
  - intros k. rewrite envOf_insert_env. apply lookup_merge_props.
  - vm_compute. reflexivity.
Qed.

End WithRuntime.

Lemma claudeCodeSettings_deep_merge_witness :
  let preset := VObj {[ "claudeCodeSettings" :=
                          VObj {[ "model" := VStr "opus";
                                  "env" := VObj {[ "B" := VNum "3" ]} ]} ]} in
  let merged := mergeClaudeCodeSettings canonical_runtime preset
                  {[ "env" := VObj {[ "A" := VNum "1"; "B" := VNum "2" ]} ]} in
  merged !! "model" = Some (VStr "opus")
  ∧ envOf merged !! "A" = Some (VNum "1")
  ∧ envOf merged !! "B" = Some (VNum "3").
Proof.
  intros preset merged.
  pose proof (claudeCodeSettings_deep_merge canonical_runtime preset
                {[ "env" := VObj {[ "A" := VNum "1"; "B" := VNum "2" ]} ]}
                {[ "model" := VStr "opus"; "env" := VObj {[ "B" := VNum "3" ]} ]}
                eq_refl) as (Htop & Henv & _).
  split; [|split].
  - exact (Htop "model" ltac:(done)).
  - exact (Henv "A").
  - exact (Henv "B").
Defined.

Section NonInteractive.
Context (rt : Runtime).

Lemma nonInteractiveEnv_forced (env : gmap string value) :
  nonInteractiveEnv env !! "TERM" = Some (VStr "dumb")
  ∧ nonInteractiveEnv env !! "CI" = Some (VStr "true")
  ∧ nonInteractiveEnv env !! "FORCE_COLOR" = Some (VStr "0")
  ∧ nonInteractiveEnv env !! "NODE_NO_READLINE" = Some (VStr "1").
Proof.
  unfold nonInteractiveEnv. repeat split.
  - by rewrite lookup_insert_eq.
  - by rewrite !lookup_insert_ne, lookup_insert_eq by done.
  - by rewrite !lookup_insert_ne, lookup_insert_eq by done.
  - by rewrite lookup_insert_ne, lookup_insert_eq by done.
Qed.

(** C3.  When [NON_INTERACTIVE_MODE] is set, the environment of the final
    payload has [TERM = "dumb"], [CI = "true"], [FORCE_COLOR = "0"] and
    [NODE_NO_READLINE = "1"], whatever the base environment, the overrides
    and the preset say about these keys. *)
Theorem nonInteractive_override_last
    (config env : gmap string value) (presetConfig : value)
    (envOverrides : option (gmap string string)) (presetName : option string) :
  truthy rt (prop config "NON_INTERACTIVE_MODE") = true →
  let final := envOf (buildSettingsFlag rt config env presetConfig envOverrides presetName) in
  final !! "TERM" = Some (VStr "dumb")
  ∧ final !! "CI" = Some (VStr "true")
  ∧ final !! "FORCE_COLOR" = Some (VStr "0")
  ∧ final !! "NODE_NO_READLINE" = Some (VStr "1").
Proof.
  intros Hni final. subst final.
  unfold buildSettingsFlag, applyNonInteractive. rewrite Hni.
  rewrite envOf_insert_env. apply nonInteractiveEnv_forced.
Qed.

End NonInteractive.

Lemma nonInteractive_override_last_witness :
  let config : gmap string value := {[ "NON_INTERACTIVE_MODE" := VBool true ]} in
  let env : gmap string value := {[ "TERM" := VStr "xterm" ]} in
  let preset :=
    VObj {[ "claudeCodeSettings" := VObj {[ "env" := VObj {[ "CI" := VStr "false" ]} ]} ]} in
  let final := envOf (buildSettingsFlag canonical_runtime config env preset
                        (Some {[ "FORCE_COLOR" := "3" ]}) None) in
  final !! "TERM" = Some (VStr "dumb")
  ∧ final !! "CI" = Some (VStr "true")
  ∧ final !! "FORCE_COLOR" = Some (VStr "0")
  ∧ final !! "NODE_NO_READLINE" = Some (VStr "1").
Proof.
  intros config env preset final.
  exact (nonInteractive_override_last canonical_runtime config env preset
           (Some {[ "FORCE_COLOR" := "3" ]}) None eq_refl).
Defined.

Section StatusLine.
Context (rt : Runtime).

Lemma enabled_is_object (v : value) :
  truthy rt (get_prop v "enabled") = true → truthy rt v = true.
Proof. by destruct v. Qed.

(** C5, as the code has it.  When the preset's status line is enabled, a
    non-empty preset name was passed and the preset's nested settings do not
    define [statusLine] themselves, the payload's status line is the
    synthesised one: of type [command], with padding 0 and the command
    [ccr statusline <presetName>], whatever the global configuration says. *)
Theorem preset_statusLine_synthesised
    (config env : gmap string value) (presetConfig : value)
    (envOverrides : option (gmap string string)) (presetName : string) :
  truthy rt (get_prop (get_prop presetConfig "StatusLine") "enabled") = true →
  presetName ≠ "" →
  spread (get_prop presetConfig "claudeCodeSettings") !! "statusLine" = None →
  buildSettingsFlag rt config env presetConfig envOverrides (Some presetName) !! "statusLine"
  = Some (VObj {[ "type" := VStr "command";
                  "command" := VStr ("ccr statusline " +:+ presetName);
                  "padding" := VNum "0" ]}).
Proof.
  intros Henabled Hname Hnested.
  unfold buildSettingsFlag, applyNonInteractive, mergeClaudeCodeSettings,
    mergeSettings, addStatusLine, statusLineConfig, or_else.
  rewrite (enabled_is_object _ Henabled), Henabled.
  unfold statuslineCommand, commandStatusLine. rewrite bool_decide_false by done.
  repeat case_match;
    rewrite ?lookup_insert_ne by done;
    rewrite ?lookup_merge_props, ?Hnested;
    by rewrite lookup_insert_eq.
Qed.

End StatusLine.

Lemma preset_statusLine_synthesised_witness :
  buildSettingsFlag canonical_runtime
    {[ "StatusLine" := VObj {[ "enabled" := VBool true ]} ]} ∅
    (VObj {[ "StatusLine" := VObj {[ "enabled" := VBool true ]} ]})
    None (Some "work") !! "statusLine"
  = Some (VObj {[ "type" := VStr "command";
                  "command" := VStr "ccr statusline work";
                  "padding" := VNum "0" ]}).
Proof.
  exact (preset_statusLine_synthesised canonical_runtime
           {[ "StatusLine" := VObj {[ "enabled" := VBool true ]} ]} ∅
           (VObj {[ "StatusLine" := VObj {[ "enabled" := VBool true ]} ]})
           None "work" eq_refl ltac:(done) eq_refl).
Defined.

(** C5 as stated fails twice.  With preset and global status line both
    enabled, a preset whose nested settings carry a [statusLine] of their own
    gets that one in the payload, not the synthesised one; and without a
    preset name the command has no suffix. *)
Lemma statusLine_not_always_synthesised :
  let enabled := VObj {[ "enabled" := VBool true ]} in
  let config : gmap string value := {[ "StatusLine" := enabled ]} in
  let custom := VObj {[ "type" := VStr "command"; "command" := VStr "my-status";
                        "padding" := VNum "2" ]} in
  let nested := VObj {[ "StatusLine" := enabled;
                        "claudeCodeSettings" := VObj {[ "statusLine" := custom ]} ]} in
  let unnamed := VObj {[ "StatusLine" := enabled ]} in
  (truthy canonical_runtime (get_prop (get_prop nested "StatusLine") "enabled") = true
   ∧ truthy canonical_runtime (get_prop (prop config "StatusLine") "enabled") = true
   ∧ buildSettingsFlag canonical_runtime config ∅ nested None (Some "work") !! "statusLine"
     = Some custom
   ∧ custom ≠ commandStatusLine "ccr statusline work")
  ∧ (truthy canonical_runtime (get_prop (get_prop unnamed "StatusLine") "enabled") = true
     ∧ buildSettingsFlag canonical_runtime config ∅ unnamed None None !! "statusLine"
       = Some (commandStatusLine "ccr statusline")).
Proof.
  repeat split; try (vm_compute; reflexivity).
  intros H. apply (f_equal (λ v, get_prop v "command")) in H.
  vm_compute in H. discriminate.
Qed.

End SettingsFacts.

(** ** The flag translation *)

Module FlagsFacts.

Import Minimist Flags.

Section WithRuntime.
Context (rt : Runtime).

(** The loop only ever appends to [argsArr]. *)
Lemma pushFlag_appends nonInteractive argsArr entry :
  pushFlag rt nonInteractive argsArr entry
  = argsArr ++ pushFlag rt nonInteractive [] entry.
Proof.
  destruct entry as [k v]. unfold pushFlag.
  destruct (bool_decide (k ≠ "_") && defined v); [|by rewrite app_nil_r].
  destruct v as [|[]| | | |], nonInteractive;
    rewrite ?app_nil_r; try reflexivity; by rewrite <- app_assoc.
Qed.

Lemma foldl_pushFlag nonInteractive argsArr entries :
  foldl (pushFlag rt nonInteractive) argsArr entries
  = argsArr ++ translateEntries rt nonInteractive entries.
Proof.
  unfold translateEntries. revert argsArr.
  induction entries as [|e entries IH] using rev_ind; intros argsArr.
  - by rewrite app_nil_r.
  - rewrite !foldl_snoc, IH.
    rewrite (pushFlag_appends _ (argsArr ++ _)), (pushFlag_appends _ (foldl _ _ _)).
    by rewrite app_assoc.
Qed.

Lemma translateEntries_app nonInteractive before after :
  translateEntries rt nonInteractive (before ++ after)
  = translateEntries rt nonInteractive before ++ translateEntries rt nonInteractive after.
Proof.
  unfold translateEntries at 1. rewrite foldl_app. apply foldl_pushFlag.
Qed.

Lemma translateEntries_cons nonInteractive entry after :
  translateEntries rt nonInteractive (entry :: after)
  = pushFlag rt nonInteractive [] entry ++ translateEntries rt nonInteractive after.
Proof.
  unfold translateEntries at 1. cbn [foldl]. apply foldl_pushFlag.
Qed.

(** C4.  A flag parsed as [true] contributes exactly one token, its name
    behind one dash when the name has one character and two dashes
    otherwise; a flag parsed as [false] contributes nothing.  Both hold in
    either mode. *)
Theorem boolean_flags (nonInteractive : bool) (argsObj before after : props) (k : string) :
  k ≠ "_" →
  (Object_entries argsObj = before ++ (k, ABool true) :: after →
     translate rt nonInteractive argsObj
     = translateEntries rt nonInteractive before
       ++ [prefix k +:+ k] ++ translateEntries rt nonInteractive after)
  ∧ (Object_entries argsObj = before ++ (k, ABool false) :: after →
     translate rt nonInteractive argsObj
     = translateEntries rt nonInteractive before
       ++ translateEntries rt nonInteractive after)
  ∧ (String.length k = 1 → prefix k = "-")
  ∧ (String.length k ≠ 1 → prefix k = "--").
Proof.
  intros Hk. unfold translate. repeat split.
  - intros ->. rewrite translateEntries_app, translateEntries_cons.
    unfold pushFlag. by rewrite bool_decide_true.
  - intros ->. rewrite translateEntries_app, translateEntries_cons.
    unfold pushFlag. by rewrite bool_decide_true.
  - intros Hlen. unfold prefix. by rewrite bool_decide_true.
  - intros Hlen. unfold prefix. by rewrite bool_decide_false.
Qed.

End WithRuntime.

(** The parser on the example of its documentation, and the two modes of
    the translation on a small command line. *)
Example minimist_documented_example :
  minimist ["-x"; "3"; "-y"; "4"; "-n5"; "-abc"; "--beep=boop"; "foo"; "bar"; "baz"]
  = Some [("_", AArr [AStr "foo"; AStr "bar"; AStr "baz"]);
          ("x", ANum "3"); ("y", ANum "4"); ("n", ANum "5");
          ("a", ABool true); ("b", ABool true); ("c", ABool true);
          ("beep", AStr "boop")].
Proof. reflexivity. Qed.

(** Where the model throws, and where it gives no answer: a flag named like
    an inherited property, a key without a name, a property set on a number;
    a dotted key through a repeated flag, which holds an array.  One of the
    two guarded names ends [setKey] quietly, also on a number. *)
Example minimist_throws :
  parse ["--toString"] = Throws
  ∧ parse ["--=x=y"] = Throws
  ∧ parse ["--a"; "1"; "--a.b"; "2"] = Throws.
Proof. by vm_compute. Qed.

Example minimist_unanswered :
  parse ["--a"; "1"; "--a"; "2"; "--a.b"; "3"] = Unanswered
  ∧ answers ["--a"; "1"; "--a"; "2"; "--a.b"; "3"] = false
  ∧ answers ["-p"; "hello"; "--settings"; "/tmp/claude-code-router/ccr-settings.json"]
    = true.
Proof. by vm_compute. Qed.

Example minimist_guarded_names :
  minimist ["--a"; "1"; "--a.constructor.x"; "2"; "--b.__proto__.y"; "3"]
  = Some [("_", AArr []); ("a", ANum "1"); ("b", AObj [])].
Proof. by vm_compute. Qed.

Example translate_interactive :
  translate canonical_runtime false
  <$> minimist ["-v"; "--max-turns"; "3"; "--no-color"; "prompt"]
  = Some ["-v"; "--max-turns 3"].
Proof. reflexivity. Qed.

Example translate_nonInteractive :
  translate canonical_runtime true
  <$> minimist ["-v"; "--max-turns"; "3"; "--no-color"; "prompt"]
  = Some ["-v"; "--max-turns"; "3"].
Proof. reflexivity. Qed.

Lemma boolean_flags_witness :
  translate canonical_runtime true
    [("_", AArr []); ("v", ABool true); ("color", ABool false); ("model", AStr "x")]
  = ["-v"; "--model"; "x"].
Proof.
  pose proof (boolean_flags canonical_runtime true
                [("_", AArr []); ("v", ABool true); ("color", ABool false);
                 ("model", AStr "x")]
                [("_", AArr [])] [("color", ABool false); ("model", AStr "x")]
                "v" ltac:(done)) as (Htrue & _).
  rewrite (Htrue eq_refl). reflexivity.
Defined.

Section Parsed.
Context (rt : Runtime).

(** The launcher's own flag, read back by the parser: a path that does not
    look like a flag is the value of [--settings]. *)
Lemma minimist_model_settings (p : string) :
  looks_like_flag p = false → p ≠ "--" →
  minimist ["--model"; "x"; "--settings"; p]
  = Some [("_", AArr []); ("model", AStr "x"); ("settings", coerce (AStr p))].
Proof.
  intros Hflag Hp.
  unfold minimist, parse, split_at_double_dash. cbn [Str.span].
  rewrite !(bool_decide_false (p = "--")) by done.
  rewrite bool_decide_false by done. rewrite bool_decide_false by done.
  rewrite bool_decide_false by done.
  cbn -[parse_arg coerce].
  change (parse_arg [("_", AArr [])] "--model" (Some "x"))
    with (Returns ([("_", AArr []); ("model", AStr "x")], true)).
  cbn -[parse_arg coerce].
  replace (parse_arg [("_", AArr []); ("model", AStr "x")] "--settings" (Some p))
    with (Returns ([("_", AArr []); ("model", AStr "x"); ("settings", coerce (AStr p))], true)).
  - reflexivity.
  - unfold parse_arg. cbn -[coerce looks_like_flag]. by rewrite Hflag.
Qed.

End Parsed.

End FlagsFacts.

(** ** The launcher *)

Module LauncherFacts.

Import Launcher.

(** What [executeCodeCommand] leaves behind, whether it returns or throws:
    the caller's array two items longer, the payload written, the reference
    count raised once, nothing else that concerns the life of the host, the
    environment of the parent in every [spawn], and the two closing
    listeners installed last, and only when it returns. *)
Lemma launch_spec (w : World) (presetName : option string) (c : Caller) :
  let r := (launch w presetName c).1 in
  let h := (launch w presetName c).2 in
  caller h = {| args := args c ++ ["--settings"; settingsFile w presetName c];
                presetConfig := presetConfig c;
                envOverrides := envOverrides c |}
  ∧ exited h = false
  ∧ listeners h = filter is_stream_listener (listeners h)
                  ++ match r with Some _ => [OnError; OnClose] | None => [] end
  ∧ ∃ tail, effects h = WriteSettings (settingsFlag w presetName c)
                        :: IncrementReferenceCount :: tail
            ∧ filter is_lifecycle tail = []
            ∧ (∀ call, Spawn call ∈ tail → env call = process_env w).
Proof.
  unfold launch, executeCodeCommand, do_spawn, call, when, forwardStdout.
  unfold mbind, M_bind, mret, M_ret, read, perform, args_push, on, throw, start.
  cbn.
  destruct (minimist w (_ ++ _)) as [argsObj|]; cbn.
  2: { repeat split; try done. eexists. repeat split; try done.
       intros call H. inversion H. }
  match goal with |- context [from_option _ _ ?x] => destruct x as [[si so]|] end.
  all: cbn.
  all: destruct (nonInteractive w); cbn.
  all: try destruct si; try destruct so; cbn.
  all: try destruct (process_env w !! "CCR_OUTPUT_FILE") as [path|]; cbn.
  all: try case_bool_decide; cbn.
  all: try destruct (openSync w path); cbn.
  all: repeat split; try done.
  all: eexists; repeat split; try done.
  all: intros call Hin; repeat (apply elem_of_cons in Hin as [Hin|Hin]; [by inversion Hin|]).
  all: try by apply elem_of_nil in Hin.
Qed.

(** *** Delivering events *)

Lemma deliver_exited (w : World) (h : Host) (ev : event) :
  exited h = true → deliver w h ev = h.
Proof. intros He. unfold deliver. by rewrite He. Qed.

Lemma run_exited (w : World) (h : Host) (events : list event) :
  exited h = true → foldl (deliver w) h events = h.
Proof.
  intros He. induction events as [|ev events IH]; [done|].
  cbn. by rewrite deliver_exited.
Qed.

Lemma emit_exited (w : World) (ls : list listener) (ev : event) (h : Host) :
  exited h = true → emit w ls ev h = h.
Proof. intros He. destruct ls; cbn; [done|]. by rewrite He. Qed.

Lemma emit_app (w : World) (ls1 ls2 : list listener) (ev : event) (h : Host) :
  emit w (ls1 ++ ls2) ev h = emit w ls2 ev (emit w ls1 ev h).
Proof.
  revert h. induction ls1 as [|l ls1 IH]; intros h; [done|].
  cbn. destruct (exited h) eqn:He; [by rewrite emit_exited|].
  destruct (body w l ev h) as [[[]|] h']; [apply IH|].
  destruct (exited h') eqn:He'; by rewrite emit_exited.
Qed.

Lemma run_snoc (w : World) (presetName : option string) (c : Caller)
    (events : list event) (ev : event) :
  run w presetName c (events ++ [ev]) = deliver w (run w presetName c events) ev.
Proof. unfold run. by rewrite foldl_app. Qed.

(** Unfolds the body of a listener, with both outcomes of each call on the
    output file. *)
Ltac run_body :=
  unfold body, fs, call, throw, process_exit, perform, mbind, M_bind, mret, M_ret; cbn;
  repeat (match goal with
          | |- context [fs_throws ?w ?n ?e] => destruct (fs_throws w n e) eqn:?
          end; cbn).

Ltac not_among :=
  let Hin := fresh "Hin" in
  intros ? Hin;
  repeat (apply elem_of_cons in Hin as [Hin|Hin]; [discriminate Hin|]);
  by apply elem_of_nil in Hin.

(** *** What holds from one state of the host to every later one

    A relation between states that every listener and every uncaught
    exception respects is respected by every run of events. *)
Section Invariant.
Context (w : World) (good : listener → bool) (R : Host → Host → Prop).
Hypothesis R_refl : ∀ h, R h h.
Hypothesis R_trans : ∀ h1 h2 h3, R h1 h2 → R h2 h3 → R h1 h3.
Hypothesis R_listeners : ∀ h h', R h h' → listeners h' = listeners h.
Hypothesis R_body :
  ∀ l ev h, exited h = false → good l = true → R h (body w l ev h).2.
Hypothesis R_crash : ∀ h, exited h = false → R h (crash h).

Lemma emit_invariant (ls : list listener) (ev : event) (h : Host) :
  forallb good ls = true → R h (emit w ls ev h).
Proof.
  revert h. induction ls as [|l ls IH]; intros h Hgood; [apply R_refl|].
  cbn in Hgood. apply andb_prop in Hgood as [Hl Hls].
  cbn [emit]. destruct (exited h) eqn:He; [apply R_refl|].
  pose proof (R_body l ev h He Hl) as Hstep.
  destruct (body w l ev h) as [[[]|] h']; cbn [snd] in Hstep.
  - eapply R_trans; [exact Hstep|by apply IH].
  - destruct (exited h') eqn:He'; [exact Hstep|].
    eapply R_trans; [exact Hstep|by apply R_crash].
Qed.

Lemma deliver_invariant (h : Host) (ev : event) :
  forallb good (listeners h) = true → R h (deliver w h ev).
Proof.
  intros Hgood. unfold deliver. destruct (exited h) eqn:He; [apply R_refl|].
  destruct ev; try by apply emit_invariant.
  destruct (existsb _ _); [by apply emit_invariant|by apply R_crash].
Qed.

Lemma run_invariant (h : Host) (events : list event) :
  forallb good (listeners h) = true → R h (foldl (deliver w) h events).
Proof.
  revert h. induction events as [|ev events IH]; intros h Hgood; [apply R_refl|].
  cbn [foldl]. pose proof (deliver_invariant h ev Hgood) as Hstep.
  eapply R_trans; [exact Hstep|]. apply IH. by rewrite (R_listeners _ _ Hstep).
Qed.

End Invariant.

Lemma forallb_any (ls : list listener) : forallb (λ _, true) ls = true.
Proof. by induction ls. Qed.

(** *** What no event changes *)

(** No listener touches the caller's objects or the list of listeners, and
    none calls [spawn]. *)
Lemma run_frame (w : World) (h : Host) (events : list event) :
  caller (foldl (deliver w) h events) = caller h
  ∧ listeners (foldl (deliver w) h events) = listeners h
  ∧ ∃ es, effects (foldl (deliver w) h events) = effects h ++ es
          ∧ ∀ call, Spawn call ∉ es.
Proof.
  apply (run_invariant w (λ _, true)
           (λ h h', caller h' = caller h ∧ listeners h' = listeners h
                    ∧ ∃ es, effects h' = effects h ++ es ∧ ∀ call, Spawn call ∉ es));
    [| | | | |apply forallb_any].
  - intros h0. repeat split. exists []. split; [by rewrite app_nil_r|not_among].
  - intros h1 h2 h3 (Hc1 & Hl1 & es1 & He1 & Hs1) (Hc2 & Hl2 & es2 & He2 & Hs2).
    rewrite Hc2, Hl2, He2, Hc1, Hl1, He1. repeat split.
    exists (es1 ++ es2). split; [by rewrite app_assoc|].
    intros call [H|H]%elem_of_app; [by eapply Hs1|by eapply Hs2].
  - by intros h0 h' (_ & Hl & _).
  - intros l ev [c es0 ls ex] _ _.
    destruct l, ev; run_body; repeat split;
      first
        [ by (exists []; split; [by rewrite app_nil_r|not_among])
        | eexists; split; [by rewrite <- ?app_assoc|not_among] ].
  - intros h0 _. cbn. repeat split. eexists. split; [done|not_among].
Qed.

(** Whatever [executeCodeCommand] itself did is not done again or undone by
    a listener. *)
Lemma run_setup_frame (w : World) (h : Host) (events : list event) :
  filter is_setup_effect (effects (foldl (deliver w) h events))
  = filter is_setup_effect (effects h).
Proof.
  apply (run_invariant w (λ _, true)
           (λ h h', listeners h' = listeners h
                    ∧ filter is_setup_effect (effects h')
                      = filter is_setup_effect (effects h)));
    [| | | | |apply forallb_any].
  - done.
  - intros h1 h2 h3 [Hl1 He1] [Hl2 He2]. by rewrite Hl2, He2.
  - by intros h0 h' [Hl _].
  - intros l ev [c es0 ls ex] _ _.
    destruct l, ev; run_body; split; try done;
      rewrite ?filter_app; cbn; by rewrite ?app_nil_r.
  - intros h0 _. cbn. split; [done|]. rewrite filter_app. cbn. by rewrite app_nil_r.
Qed.

(** Without listeners on the streams nothing is done on the streams. *)
Lemma run_closing (w : World) (h : Host) (events : list event) :
  filter is_stream_listener (listeners h) = [] →
  filter is_stream_effect (effects (foldl (deliver w) h events))
  = filter is_stream_effect (effects h).
Proof.
  intros Hls.
  apply (run_invariant w (λ l, negb (is_stream_listener l))
           (λ h h', listeners h' = listeners h
                    ∧ filter is_stream_effect (effects h')
                      = filter is_stream_effect (effects h))).
  - done.
  - intros h1 h2 h3 [Hl1 He1] [Hl2 He2]. by rewrite Hl2, He2.
  - by intros h0 h' [Hl _].
  - intros l ev [c es0 ls ex] _ Hl.
    destruct l, ev; try discriminate Hl; run_body; split; try done;
      rewrite ?filter_app; cbn; by rewrite ?app_nil_r.
  - intros h0 _. cbn. split; [done|]. rewrite filter_app. cbn. by rewrite app_nil_r.
  - induction (listeners h) as [|l ls IH]; [done|].
    rewrite filter_cons in Hls. cbn.
    destruct (decide (is_stream_listener l)) as [|Hl]; [done|].
    rewrite IH by done. by destruct (is_stream_listener l).
Qed.

(** Without the two closing listeners nothing of what they do is done. *)
Lemma run_deaf (w : World) (h : Host) (events : list event) :
  forallb is_stream_listener (listeners h) = true →
  filter is_closing_effect (effects (foldl (deliver w) h events))
  = filter is_closing_effect (effects h).
Proof.
  apply (run_invariant w is_stream_listener
           (λ h h', listeners h' = listeners h
                    ∧ filter is_closing_effect (effects h')
                      = filter is_closing_effect (effects h))).
  - done.
  - intros h1 h2 h3 [Hl1 He1] [Hl2 He2]. by rewrite Hl2, He2.
  - by intros h0 h' [Hl _].
  - intros l ev [c es0 ls ex] _ Hl.
    destruct l, ev; try discriminate Hl; run_body; split; try done;
      rewrite ?filter_app; cbn; by rewrite ?app_nil_r.
  - intros h0 _. cbn. split; [done|]. rewrite filter_app. cbn. by rewrite app_nil_r.
Qed.

(** *** How a host ends *)

Lemma exitCode_verbatim (code : option Z) : exitCode code = default 0%Z code.
Proof. destruct code as [c|]; [|done]. cbn. by case_bool_decide. Qed.

(** One listener on a running host: it returns or throws and leaves the
    lifecycle as it was, or it is one of the two closing listeners and ends
    the host through [process.exit]. *)
Lemma body_lifecycle (w : World) (l : listener) (ev : event) (h : Host) :
  exited h = false →
  ∃ e, filter is_lifecycle (effects (body w l ev h).2)
       = filter is_lifecycle (effects h) ++ ending_effects e
       ∧ exited (body w l ev h).2 = has_ended e
       ∧ (e = Running
          ∨ by_closing_listener e = true ∧ is_stream_listener l = false
            ∧ (body w l ev h).1 = None).
Proof.
  destruct h as [c es ls ex]. cbn [exited]. intros ->.
  destruct l, ev; run_body; rewrite ?filter_app; cbn;
    first
      [ by (exists Running; split; [by rewrite ?app_nil_r|]; split; [done|by left])
      | by (exists ExitedOnError; split; [by rewrite <- !app_assoc|];
            split; [done|by right])
      | by (eexists (ExitedOnClose _); split; [by rewrite <- !app_assoc|];
            split; [done|by right]) ].
Qed.

Lemma crash_lifecycle (h : Host) :
  filter is_lifecycle (effects (crash h))
  = filter is_lifecycle (effects h) ++ ending_effects Crashed
  ∧ exited (crash h) = has_ended Crashed.
Proof. cbn. by rewrite filter_app. Qed.

Lemma emit_lifecycle (w : World) (ls : list listener) (ev : event) (h : Host) :
  exited h = false →
  ∃ e, filter is_lifecycle (effects (emit w ls ev h))
       = filter is_lifecycle (effects h) ++ ending_effects e
       ∧ exited (emit w ls ev h) = has_ended e
       ∧ (forallb is_stream_listener ls = true → by_closing_listener e = false).
Proof.
  revert h. induction ls as [|l ls IH]; intros h He.
  { exists Running. cbn. by rewrite app_nil_r. }
  cbn [emit]. rewrite He.
  destruct (body_lifecycle w l ev h He) as (e & Hf & Hx & Hcase).
  destruct (body w l ev h) as [[[]|] h'] eqn:Hbody; cbn [fst snd] in *.
  - destruct Hcase as [->|(_ & _ & ?)]; [|done].
    cbn in Hf, Hx. rewrite app_nil_r in Hf.
    destruct (IH h' Hx) as (e' & Hf' & Hx' & Hdeaf).
    exists e'. rewrite Hf', Hf. split; [done|]. split; [done|].
    cbn. intros [_ Hls]%andb_prop. by apply Hdeaf.
  - destruct Hcase as [->|(Hc & Hl & _)].
    + cbn in Hf, Hx. rewrite app_nil_r in Hf. rewrite Hx.
      exists Crashed. destruct (crash_lifecycle h') as [-> ->]. by rewrite Hf.
    + assert (has_ended e = true) as Hended by by destruct e.
      rewrite Hx, Hended. exists e. rewrite Hx, Hended. split; [done|]. split; [done|].
      cbn. rewrite Hl. discriminate.
Qed.

Lemma deaf_to_errors (ls : list listener) :
  forallb is_stream_listener ls = true → existsb listens_for_error ls = false.
Proof.
  induction ls as [|l ls IH]; [done|].
  cbn. intros [Hl Hls]%andb_prop. rewrite IH by done. by destruct l.
Qed.

Lemma deliver_lifecycle (w : World) (h : Host) (ev : event) :
  exited h = false →
  ∃ e, filter is_lifecycle (effects (deliver w h ev))
       = filter is_lifecycle (effects h) ++ ending_effects e
       ∧ exited (deliver w h ev) = has_ended e
       ∧ (forallb is_stream_listener (listeners h) = true → by_closing_listener e = false).
Proof.
  intros He. unfold deliver. rewrite He.
  destruct ev; try by apply emit_lifecycle.
  destruct (existsb _ _); [by apply emit_lifecycle|].
  exists Crashed. by destruct (crash_lifecycle h) as [-> ->].
Qed.

Lemma run_lifecycle_from (w : World) (h : Host) (events : list event) :
  exited h = false →
  ∃ e, filter is_lifecycle (effects (foldl (deliver w) h events))
       = filter is_lifecycle (effects h) ++ ending_effects e
       ∧ exited (foldl (deliver w) h events) = has_ended e
       ∧ (forallb is_stream_listener (listeners h) = true → by_closing_listener e = false).
Proof.
  revert h. induction events as [|ev events IH]; intros h He.
  { exists Running. cbn. by rewrite app_nil_r. }
  cbn [foldl]. destruct (deliver_lifecycle w h ev He) as (e & Hf & Hx & Hdeaf).
  destruct (has_ended e) eqn:Hended.
  - rewrite run_exited by done. exists e. by rewrite Hended.
  - assert (e = Running) as -> by by destruct e.
    cbn in Hf. rewrite app_nil_r in Hf.
    destruct (IH _ Hx) as (e' & Hf' & Hx' & Hdeaf').
    exists e'. rewrite Hf', Hf. split; [done|]. split; [done|].
    intros Hls. apply Hdeaf'.
    assert (deliver w h ev = foldl (deliver w) h [ev]) as -> by done.
    by destruct (run_frame w h [ev]) as (_ & -> & _).
Qed.

(** *** After the launch *)

Lemma forallb_filter_stream (ls : list listener) :
  forallb is_stream_listener (filter is_stream_listener ls) = true.
Proof.
  induction ls as [|l ls IH]; [done|].
  rewrite filter_cons. destruct (decide (is_stream_listener l)) as [Hl|]; [|done].
  cbn. by rewrite (Is_true_true_1 _ Hl).
Qed.

Lemma launch_returned (w : World) (presetName : option string) (c : Caller) :
  (launch w presetName c).1 = Some () →
  ∃ ls, listeners (launch w presetName c).2 = ls ++ [OnError; OnClose]
        ∧ forallb is_stream_listener ls = true.
Proof.
  intros Hr. destruct (launch_spec w presetName c) as (_ & _ & Hls & _).
  rewrite Hr in Hls. eexists. split; [exact Hls|apply forallb_filter_stream].
Qed.

Lemma launch_threw (w : World) (presetName : option string) (c : Caller) :
  (launch w presetName c).1 = None →
  forallb is_stream_listener (listeners (launch w presetName c).2) = true.
Proof.
  intros Hr. destruct (launch_spec w presetName c) as (_ & _ & Hls & _).
  rewrite Hr, app_nil_r in Hls. rewrite Hls. apply forallb_filter_stream.
Qed.

Lemma launch_lifecycle (w : World) (presetName : option string) (c : Caller) :
  filter is_lifecycle (effects (launch w presetName c).2) = [IncrementReferenceCount].
Proof.
  destruct (launch_spec w presetName c) as (_ & _ & _ & tail & -> & Hq & _).
  rewrite !filter_cons. cbn. by rewrite Hq.
Qed.

(** The lifecycle of a whole run: the increment of the launch, and then
    what ended the host, if anything has.  The closing listeners end it only
    when [executeCodeCommand] returned. *)
Lemma run_lifecycle (w : World) (presetName : option string) (c : Caller)
    (events : list event) :
  ∃ e, filter is_lifecycle (effects (run w presetName c events))
       = IncrementReferenceCount :: ending_effects e
       ∧ exited (run w presetName c events) = has_ended e
       ∧ ((launch w presetName c).1 = None → by_closing_listener e = false).
Proof.
  destruct (launch_spec w presetName c) as (_ & He & _).
  destruct (run_lifecycle_from w _ events He) as (e & Hf & Hx & Hdeaf).
  rewrite launch_lifecycle in Hf.
  exists e. split; [exact Hf|]. split; [exact Hx|].
  intros Hr. apply Hdeaf. by apply launch_threw.
Qed.

(** *** Counting *)

Lemma filter_increment_lifecycle (es : list effect) :
  filter is_increment (filter is_lifecycle es) = filter is_increment es.
Proof.
  induction es as [|e es IH]; [done|].
  rewrite (filter_cons (λ e, is_lifecycle e)).
  destruct (decide (is_lifecycle e)) as [Hl|Hl];
    rewrite !(filter_cons (λ e, is_increment e));
    destruct (decide (is_increment e)) as [Hi|Hi]; rewrite ?IH; try done.
  by destruct e.
Qed.

Lemma filter_decrement_lifecycle (es : list effect) :
  filter is_decrement (filter is_lifecycle es) = filter is_decrement es.
Proof.
  induction es as [|e es IH]; [done|].
  rewrite (filter_cons (λ e, is_lifecycle e)).
  destruct (decide (is_lifecycle e)) as [Hl|Hl];
    rewrite !(filter_cons (λ e, is_decrement e));
    destruct (decide (is_decrement e)) as [Hi|Hi]; rewrite ?IH; try done.
  by destruct e.
Qed.

Lemma run_counts (w : World) (presetName : option string) (c : Caller)
    (events : list event) :
  ∃ e, increments (run w presetName c events) = 1
       ∧ decrements (run w presetName c events)
         = (if by_closing_listener e then 1 else 0)
       ∧ exited (run w presetName c events) = has_ended e
       ∧ ((launch w presetName c).1 = None → by_closing_listener e = false).
Proof.
  destruct (run_lifecycle w presetName c events) as (e & Hf & Hx & Hthrew).
  exists e. unfold increments, decrements.
  rewrite <- filter_increment_lifecycle, <- filter_decrement_lifecycle, Hf.
  by destruct e.
Qed.

(** When [executeCodeCommand] throws after raising the count, nothing
    lowers it again, whatever happens afterwards. *)
Lemma unmatched_increment_on_throw
    (w : World) (presetName : option string) (c : Caller) (events : list event) :
  (launch w presetName c).1 = None →
  increments (run w presetName c events) = 1
  ∧ decrements (run w presetName c events) = 0.
Proof.
  intros Hr. destruct (run_counts w presetName c events) as (e & Hi & Hd & _ & Hthrew).
  by rewrite Hi, Hd, (Hthrew Hr).
Qed.

Lemma quiet_not_lifecycle (es : list effect) (e : effect) :
  filter is_lifecycle es = [] → is_lifecycle e = true → e ∉ es.
Proof.
  intros Hq He Hin.
  assert (e ∈ filter is_lifecycle es) as Hf
    by (apply list_elem_of_filter; split; [by rewrite He|done]).
  rewrite Hq in Hf. by apply elem_of_nil in Hf.
Qed.

(** Nothing of what the closing listeners do is done by the launch. *)
Lemma launch_no_closing_effects (w : World) (presetName : option string) (c : Caller) :
  filter is_closing_effect (effects (launch w presetName c).2) = [].
Proof.
  unfold launch, executeCodeCommand, do_spawn, call, when, forwardStdout.
  unfold mbind, M_bind, mret, M_ret, read, perform, args_push, on, throw, start.
  cbn.
  destruct (minimist w (_ ++ _)) as [argsObj|]; cbn; [|done].
  match goal with |- context [from_option _ _ ?x] => destruct x as [[si so]|] end.
  all: cbn.
  all: destruct (nonInteractive w); cbn.
  all: try destruct si; try destruct so; cbn.
  all: try destruct (process_env w !! "CCR_OUTPUT_FILE") as [path|]; cbn.
  all: try case_bool_decide; cbn.
  all: try destruct (openSync w path); cbn.
  all: reflexivity.
Qed.

(** When [executeCodeCommand] threw, no event ever brings a report, a
    decrement, a shutdown of the service or a [process.exit]. *)
Lemma nothing_closes_after_throw
    (w : World) (presetName : option string) (c : Caller) (events : list event) (e : effect) :
  (launch w presetName c).1 = None →
  is_closing_effect e = true →
  e ∉ effects (run w presetName c events).
Proof.
  intros Hr He Hin.
  assert (e ∈ filter is_closing_effect (effects (run w presetName c events))) as Hf
    by (apply list_elem_of_filter; split; [by rewrite He|done]).
  unfold run in Hf.
  rewrite run_deaf, launch_no_closing_effects in Hf by by apply launch_threw.
  by apply elem_of_nil in Hf.
Qed.

(** *** The reference count when the function throws *)

(** C1, where the code breaks it.  In an automation run whose output file
    cannot be opened, [executeCodeCommand] throws after it raised the
    reference count and before it installed the listeners that lower it: the
    count was raised once and is never lowered, whatever events follow. *)
Theorem increment_unmatched_when_output_file_cannot_be_opened (events : list event) :
  let w := Scenario.unwritable_output in
  let c := Scenario.request ["-p"; "hello"] in
  (launch w None c).1 = None
  ∧ increments (run w None c events) = 1
  ∧ decrements (run w None c events) = 0.
Proof.
  intros w c.
  assert (Hthrow : (launch w None c).1 = None) by (vm_compute; reflexivity).
  split; [exact Hthrow|]. by apply unmatched_increment_on_throw.
Qed.

(** *** Termination of the child (lines 182-186) *)

(** C7, where the code breaks it.  In an automation run whose output file
    cannot be opened, [executeCodeCommand] throws at line 159, after it
    started the child and before it reached line 182, so the close event of
    the child finds no listener.  Whenever the child terminates, and
    whatever came before, the launcher does nothing at all: no decrement, no
    shutdown of the service, no exit with the child's code. *)
Theorem close_event_unheard_when_output_file_cannot_be_opened
    (pre : list event) (code : option Z) :
  let w := Scenario.unwritable_output in
  let c := Scenario.request ["-p"; "hello"] in
  (launch w None c).1 = None
  ∧ run w None c (pre ++ [ChildClose code]) = run w None c pre
  ∧ (DecrementReferenceCount ∉ effects (run w None c (pre ++ [ChildClose code])))
  ∧ (CloseService ∉ effects (run w None c (pre ++ [ChildClose code])))
  ∧ ∀ status, ProcessExit status ∉ effects (run w None c (pre ++ [ChildClose code])).
Proof.
  intros w c.
  assert (Hthrow : (launch w None c).1 = None) by (vm_compute; reflexivity).
  split; [exact Hthrow|]. split.
  - rewrite run_snoc.
    assert (Hl : listeners (run w None c pre) = [OnStdinEnd]).
    { unfold run. destruct (run_frame w (launch w None c).2 pre) as (_ & -> & _).
      vm_compute. reflexivity. }
    unfold deliver. destruct (exited (run w None c pre)) eqn:He; [done|].
    rewrite Hl. cbn [emit]. by rewrite He.
  - split; [by apply nothing_closes_after_throw|].
    split; [by apply nothing_closes_after_throw|].
    intros status. by apply nothing_closes_after_throw.
Qed.

(** *** Failure to start the child (lines 173-180) *)

(** C8, where the code breaks it.  In an automation run whose output file
    cannot be opened, [executeCodeCommand] throws at line 159, after it
    called [spawn] and before it reached line 173, so the error event of a
    child that could not be started finds no listener.  Nothing is reported,
    no hint is printed, the count is not lowered and the host does not exit
    with status 1, whatever events arrive; the error event is thrown and
    ends the host as an uncaught exception. *)
Theorem error_event_uncaught_when_output_file_cannot_be_opened
    (message : string) (events : list event) :
  let w := Scenario.unwritable_output in
  let c := Scenario.request ["-p"; "hello"] in
  (launch w None c).1 = None
  ∧ effects (run w None c [ChildError message])
    = effects (launch w None c).2 ++ [UncaughtException]
  ∧ (∀ report, ConsoleError report ∉ effects (run w None c events))
  ∧ (∀ hint, ConsoleLog hint ∉ effects (run w None c events))
  ∧ (DecrementReferenceCount ∉ effects (run w None c events))
  ∧ ∀ status, ProcessExit status ∉ effects (run w None c events).
Proof.
  intros w c.
  assert (Hthrow : (launch w None c).1 = None) by (vm_compute; reflexivity).
  split; [exact Hthrow|]. split.
  - unfold run. cbn [foldl]. unfold deliver.
    destruct (launch_spec w None c) as (_ & -> & _).
    rewrite deaf_to_errors by by apply launch_threw. reflexivity.
  - split; [intros report; by apply nothing_closes_after_throw|].
    split; [intros hint; by apply nothing_closes_after_throw|].
    split; [by apply nothing_closes_after_throw|].
    intros status. by apply nothing_closes_after_throw.
Qed.

(** *** The caller's objects (line 89) *)

(** C9, as the code has it.  The preset configuration and the environment
    overrides are left as they were; the caller's argument array is not: the
    launcher appends [--settings] and the path of the settings file to it,
    in place. *)
Theorem caller_arguments_extended_in_place
    (w : World) (presetName : option string) (c : Caller) (events : list event) :
  caller (run w presetName c events)
  = {| args := args c ++ ["--settings"; settingsFile w presetName c];
       presetConfig := presetConfig c;
       envOverrides := envOverrides c |}.
Proof.
  unfold run. destruct (run_frame w (launch w presetName c).2 events) as (-> & _).
  by destruct (launch_spec w presetName c) as (-> & _).
Qed.

(** C9 as stated fails: after the call the caller's array is longer than
    it was. *)
Lemma caller_arguments_not_preserved :
  let c := Scenario.request ["--model"; "x"] in
  args (caller (run Scenario.interactive None c [ChildClose (Some 0%Z)]))
  = ["--model"; "x"; "--settings"; "/tmp/claude-code-router/ccr-settings.json"]
  ∧ args (caller (run Scenario.interactive None c [ChildClose (Some 0%Z)])) ≠ args c.
Proof.
  intros c. split; [vm_compute; reflexivity|].
  vm_compute. discriminate.
Qed.

(** *** The child's environment (lines 129-141) *)

Lemma launch_spawns (w : World) (presetName : option string) (c : Caller)
    (argsObj : Minimist.props) :
  minimist w (args c ++ ["--settings"; settingsFile w presetName c]) = Some argsObj →
  (launch w presetName c).2.(effects) !! 2
  = Some (Spawn {| command := claudePath w;
                   argv := Flags.translate (runtime w) (nonInteractive w) argsObj;
                   env := process_env w;
                   stdioConfig := if nonInteractive w then PipePipeInherit else Inherit;
                   shell := negb (nonInteractive w) |}).
Proof.
  intros Hparse.
  unfold launch, executeCodeCommand, do_spawn, call, when, forwardStdout.
  unfold mbind, M_bind, mret, M_ret, read, perform, args_push, on, throw, start.
  cbn. rewrite Hparse. cbn.
  match goal with |- context [from_option _ _ ?x] => destruct x as [[si so]|] end.
  all: cbn.
  all: destruct (nonInteractive w); cbn.
  all: try destruct si; try destruct so; cbn.
  all: try destruct (process_env w !! "CCR_OUTPUT_FILE") as [path|]; cbn.
  all: try case_bool_decide; cbn.
  all: try destruct (openSync w path); cbn.
  all: reflexivity.
Qed.

(** C10.  Every call of [spawn] passes the environment of the parent
    process, and nothing else, as the child's environment; the payload with
    the computed environment goes to the settings file; and [spawn] is
    called whenever the arguments parse. *)
Theorem child_inherits_parent_environment
    (w : World) (presetName : option string) (c : Caller) (events : list event) :
  (∀ call, Spawn call ∈ effects (run w presetName c events) → env call = process_env w)
  ∧ WriteSettings (settingsFlag w presetName c) ∈ effects (run w presetName c events)
  ∧ (is_Some (minimist w (args c ++ ["--settings"; settingsFile w presetName c])) →
     ∃ call, Spawn call ∈ effects (run w presetName c events)).
Proof.
  unfold run.
  destruct (run_frame w (launch w presetName c).2 events) as (_ & _ & es & -> & Hes).
  destruct (launch_spec w presetName c) as (_ & _ & _ & tail & He & _ & Htail).
  split; [|split].
  - intros call [Hin|Hin]%elem_of_app; [|by apply Hes in Hin].
    rewrite He in Hin.
    apply elem_of_cons in Hin as [Hin|Hin]; [discriminate Hin|].
    apply elem_of_cons in Hin as [Hin|Hin]; [discriminate Hin|].
    by apply Htail.
  - apply elem_of_app. left. rewrite He. apply list_elem_of_here.
  - intros [argsObj Hparse]. eexists. apply elem_of_app. left.
    apply list_elem_of_lookup. exists 2. by apply launch_spawns.
Qed.

Lemma child_inherits_parent_environment_witness :
  let w := Scenario.automation in
  let c := {| args := ["-p"; "hello"]; presetConfig := VUndef;
              envOverrides := Some {[ "ANTHROPIC_MODEL" := "custom" ]} |} in
  let call := {| command := VStr "claude";
                 argv := ["-p"; "hello"; "--settings";
                          "/tmp/claude-code-router/ccr-settings.json"];
                 env := {[ "PATH" := "/usr/bin" ]};
                 stdioConfig := PipePipeInherit;
                 shell := false |} in
  Spawn call ∈ effects (run w None c [ChildClose None])
  ∧ env call = process_env w.
Proof.
  intros w c call.
  assert (Hin : Spawn call ∈ effects (run w None c [ChildClose None])).
  { apply list_elem_of_lookup. exists 2. vm_compute. reflexivity. }
  split; [exact Hin|].
  exact (proj1 (child_inherits_parent_environment w None c [ChildClose None]) call Hin).
Defined.

(** *** Separate tokens for automation (lines 117-122) *)

(** C6.  In non-interactive mode the arguments [--model x] reach [spawn]
    as the two tokens [--model] and [x], followed by the launcher's own
    [--settings] and its path, and no shell is asked to split them.  The
    parser is assumed to do with this command line what the model says, and
    the path not to look like a flag; if it reads as a number it is printed
    as one. *)
Theorem nonInteractive_flag_and_value_are_separate_tokens
    (w : World) (presetName : option string) (c : Caller) :
  nonInteractive w = true →
  minimist w (args c ++ ["--settings"; settingsFile w presetName c])
  = Minimist.minimist (args c ++ ["--settings"; settingsFile w presetName c]) →
  args c = ["--model"; "x"] →
  Minimist.looks_like_flag (settingsFile w presetName c) = false →
  settingsFile w presetName c ≠ "--" →
  ∃ call, Spawn call ∈ effects (launch w presetName c).2
          ∧ argv call
            = ["--model"; "x"; "--settings";
               if Minimist.isNumber (settingsFile w presetName c)
               then number_to_string (runtime w) (settingsFile w presetName c)
               else settingsFile w presetName c]
          ∧ shell call = false.
Proof.
  intros Hni Hminimist Hargs Hflag Hdashes.
  rewrite Hargs in Hminimist. cbn [app] in Hminimist.
  rewrite (FlagsFacts.minimist_model_settings _ Hflag Hdashes) in Hminimist.
  pose proof (launch_spawns w presetName c _ ltac:(rewrite Hargs; exact Hminimist))
    as Hspawn.
  eexists. split; [apply list_elem_of_lookup; exists 2; exact Hspawn|].
  cbn [argv shell]. rewrite Hni. split; [|done].
  unfold Minimist.coerce.
  generalize (settingsFile w presetName c) (runtime w). intros p rt.
  destruct (Minimist.isNumber p); reflexivity.
Qed.

Lemma nonInteractive_flag_and_value_are_separate_tokens_witness :
  ∃ call, Spawn call ∈ effects (launch Scenario.automation None
                                   (Scenario.request ["--model"; "x"])).2
          ∧ argv call = ["--model"; "x"; "--settings";
                         "/tmp/claude-code-router/ccr-settings.json"]
          ∧ shell call = false.
Proof.
  exact (nonInteractive_flag_and_value_are_separate_tokens Scenario.automation None
           (Scenario.request ["--model"; "x"]) eq_refl eq_refl eq_refl eq_refl
           ltac:(discriminate)).
Defined.

End LauncherFacts.

(** ** More on the settings payload *)

Module PayloadFacts.

Import Settings SettingsFacts.

Section WithRuntime.
Context (rt : Runtime).

(** A falsy value has no properties to read or to spread. *)
Lemma falsy_has_no_properties (v : value) :
  truthy rt v = false → (∀ k, get_prop v k = VUndef) ∧ spread v = ∅.
Proof.
  destruct v as [| | | |s| |]; cbn; try done.
  intros Hs. apply negb_false_iff, bool_decide_eq_true in Hs. by subst s.
Qed.

Lemma lookup_nonInteractiveEnv (env : gmap string value) k :
  nonInteractiveEnv env !! k
  = match ({[ "CI" := VStr "true"; "FORCE_COLOR" := VStr "0";
              "NODE_NO_READLINE" := VStr "1"; "TERM" := VStr "dumb" ]}
            : gmap string value) !! k with
    | Some v => Some v
    | None => env !! k
    end.
Proof.
  set (forced := ({[ "CI" := VStr "true"; "FORCE_COLOR" := VStr "0";
                     "NODE_NO_READLINE" := VStr "1"; "TERM" := VStr "dumb" ]}
                  : gmap string value)).
  unfold nonInteractiveEnv.
  destruct (decide (k = "TERM")) as [->|];
    [by rewrite lookup_insert_eq|rewrite lookup_insert_ne by done].
  destruct (decide (k = "NODE_NO_READLINE")) as [->|];
    [by rewrite lookup_insert_eq|rewrite lookup_insert_ne by done].
  destruct (decide (k = "FORCE_COLOR")) as [->|];
    [by rewrite lookup_insert_eq|rewrite lookup_insert_ne by done].
  destruct (decide (k = "CI")) as [->|];
    [by rewrite lookup_insert_eq|rewrite lookup_insert_ne by done].
  assert (forced !! k = None) as ->; [|done].
  unfold forced. by rewrite !lookup_insert_ne, lookup_singleton_ne by done.
Qed.

Lemma lookup_applyEnvOverrides (env : gmap string value)
    (envOverrides : option (gmap string string)) k :
  applyEnvOverrides env envOverrides !! k
  = match envOverrides ≫= (λ ov, ov !! k) with
    | Some s => Some (VStr s)
    | None => env !! k
    end.
Proof.
  destruct envOverrides as [ov|]; [|done]. cbn.
  rewrite lookup_merge_props, lookup_fmap. by destruct (ov !! k).
Qed.

Lemma env_after_statusLine (presetConfig : value) (config : gmap string value)
    (presetName : option string) (env : gmap string value) :
  prop (addStatusLine rt presetConfig config presetName {[ "env" := VObj env ]}) "env"
  = VObj env.
Proof.
  unfold addStatusLine, prop. case_match; [by rewrite lookup_insert_ne|done].
Qed.

(** X1.  Where each key of the payload's environment comes from, in order of
    priority: the four automation keys when non-interactive mode is on, then
    the environment of the preset's nested settings, then the overrides
    passed by the caller, then the base environment. *)
Theorem payload_env_priority
    (config env : gmap string value) (presetConfig : value)
    (envOverrides : option (gmap string string)) (presetName : option string) (k : string) :
  envOf (buildSettingsFlag rt config env presetConfig envOverrides presetName) !! k
  = match (if truthy rt (prop config "NON_INTERACTIVE_MODE")
           then ({[ "CI" := VStr "true"; "FORCE_COLOR" := VStr "0";
                    "NODE_NO_READLINE" := VStr "1"; "TERM" := VStr "dumb" ]}
                 : gmap string value) !! k
           else None) with
    | Some v => Some v
    | None =>
        match spread (get_prop (get_prop presetConfig "claudeCodeSettings") "env") !! k with
        | Some v => Some v
        | None =>
            match envOverrides ≫= (λ ov, ov !! k) with
            | Some s => Some (VStr s)
            | None => env !! k
            end
        end
    end.
Proof.
  assert (Hmerged :
    envOf (mergeClaudeCodeSettings rt presetConfig
             (addStatusLine rt presetConfig config presetName
                {[ "env" := VObj (applyEnvOverrides env envOverrides) ]})) !! k
    = match spread (get_prop (get_prop presetConfig "claudeCodeSettings") "env") !! k with
      | Some v => Some v
      | None => applyEnvOverrides env envOverrides !! k
      end).
  { unfold mergeClaudeCodeSettings.
    destruct (truthy rt (get_prop presetConfig "claudeCodeSettings")) eqn:Hccs.
    - unfold mergeSettings. rewrite envOf_insert_env, lookup_merge_props.
      by rewrite env_after_statusLine.
    - destruct (falsy_has_no_properties _ Hccs) as [-> _].
      unfold envOf. by rewrite env_after_statusLine. }
  unfold buildSettingsFlag, applyNonInteractive.
  destruct (truthy rt (prop config "NON_INTERACTIVE_MODE")).
  - rewrite envOf_insert_env, lookup_nonInteractiveEnv.
    fold (envOf (mergeClaudeCodeSettings rt presetConfig
                   (addStatusLine rt presetConfig config presetName
                      {[ "env" := VObj (applyEnvOverrides env envOverrides) ]}))).
    by rewrite Hmerged, lookup_applyEnvOverrides.
  - by rewrite Hmerged, lookup_applyEnvOverrides.
Qed.

(** X2.  What the payload holds at the top level: [env], always an object;
    the keys of the preset's nested settings; and [statusLine], synthesised
    when the selected status-line configuration is enabled and the nested
    settings do not bring their own.  Nothing else. *)
Theorem payload_top_level_keys
    (config env : gmap string value) (presetConfig : value)
    (envOverrides : option (gmap string string)) (presetName : option string) (k : string) :
  let payload := buildSettingsFlag rt config env presetConfig envOverrides presetName in
  payload !! k
  = if bool_decide (k = "env") then Some (VObj (envOf payload))
    else match spread (get_prop presetConfig "claudeCodeSettings") !! k with
         | Some v => Some v
         | None =>
             if bool_decide (k = "statusLine")
                && truthy rt (get_prop (statusLineConfig rt presetConfig config) "enabled")
             then Some (commandStatusLine (statuslineCommand presetName))
             else None
         end.
Proof.
  intros payload. subst payload.
  set (base := ({[ "env" := VObj (applyEnvOverrides env envOverrides) ]}
                : gmap string value)).
  assert (Hstatus : ∀ j, j ≠ "env" →
    addStatusLine rt presetConfig config presetName base !! j
    = if bool_decide (j = "statusLine")
         && truthy rt (get_prop (statusLineConfig rt presetConfig config) "enabled")
      then Some (commandStatusLine (statuslineCommand presetName))
      else None).
  { intros j Hj. unfold addStatusLine, base.
    destruct (truthy rt _); case_bool_decide as Hs; cbn; subst;
      rewrite ?lookup_insert_eq, ?lookup_insert_ne, ?lookup_singleton_ne by done; done. }
  assert (Hmerged : ∀ j, j ≠ "env" →
    mergeClaudeCodeSettings rt presetConfig
      (addStatusLine rt presetConfig config presetName base) !! j
    = match spread (get_prop presetConfig "claudeCodeSettings") !! j with
      | Some v => Some v
      | None => addStatusLine rt presetConfig config presetName base !! j
      end).
  { intros j Hj. unfold mergeClaudeCodeSettings.
    destruct (truthy rt (get_prop presetConfig "claudeCodeSettings")) eqn:Hccs.
    - unfold mergeSettings. by rewrite lookup_insert_ne, lookup_merge_props.
    - destruct (falsy_has_no_properties _ Hccs) as [_ ->]. by rewrite lookup_empty. }
  case_bool_decide as Hk.
  - subst k. unfold envOf, prop.
    unfold buildSettingsFlag, applyNonInteractive. fold base.
    destruct (truthy rt (prop config "NON_INTERACTIVE_MODE"));
      [by rewrite lookup_insert_eq|].
    unfold mergeClaudeCodeSettings.
    destruct (truthy rt (get_prop presetConfig "claudeCodeSettings"));
      [unfold mergeSettings; by rewrite lookup_insert_eq|].
    pose proof (env_after_statusLine presetConfig config presetName
                  (applyEnvOverrides env envOverrides)) as Henv.
    fold base in Henv. unfold prop in Henv.
    destruct (addStatusLine rt presetConfig config presetName base !! "env") as [v|];
      cbn in Henv; by subst.
  - unfold buildSettingsFlag, applyNonInteractive. fold base.
    destruct (truthy rt (prop config "NON_INTERACTIVE_MODE"));
      rewrite ?lookup_insert_ne by done; rewrite Hmerged by done; by rewrite Hstatus.
Qed.

(** X3.  The preset's status line has priority even when it is disabled:
    whenever the preset carries a status-line configuration, the payload
    does not depend on the global one. *)
Theorem preset_statusLine_shadows_global
    (config env : gmap string value) (presetConfig global : value)
    (envOverrides : option (gmap string string)) (presetName : option string) :
  truthy rt (get_prop presetConfig "StatusLine") = true →
  buildSettingsFlag rt (<["StatusLine" := global]> config) env presetConfig
    envOverrides presetName
  = buildSettingsFlag rt config env presetConfig envOverrides presetName.
Proof.
  intros Hpreset.
  unfold buildSettingsFlag, applyNonInteractive, addStatusLine, statusLineConfig, or_else.
  rewrite Hpreset. unfold prop. by rewrite lookup_insert_ne.
Qed.

End WithRuntime.

Lemma preset_statusLine_shadows_global_witness :
  let disabled := VObj {[ "StatusLine" := VObj {[ "enabled" := VBool false ]} ]} in
  buildSettingsFlag canonical_runtime
    (<["StatusLine" := VObj {[ "enabled" := VBool true ]}]> ∅) ∅ disabled None (Some "work")
  = buildSettingsFlag canonical_runtime ∅ ∅ disabled None (Some "work").
Proof.
  intros disabled.
  exact (preset_statusLine_shadows_global canonical_runtime ∅ ∅ disabled
           (VObj {[ "enabled" := VBool true ]}) None (Some "work") eq_refl).
Defined.

End PayloadFacts.

(** ** More on the flag translation *)

Module TranslationFacts.

Import Str Minimist Json Flags FlagsFacts.

Section WithRuntime.
Context (rt : Runtime).

(** X4.  A flag with a value contributes, at its place among the entries,
    two tokens in non-interactive mode (name, then the value: a string as it
    is, anything else as JSON) and one token in interactive mode (name,
    space, JSON text of the value).  The entry of the positional arguments
    and entries whose value is [undefined] contribute nothing. *)
Theorem value_flags (nonInteractive : bool) (before after : props) (k : string) (v : argval) :
  k ≠ "_" → carries_value v = true →
  translateEntries rt nonInteractive (before ++ (k, v) :: after)
  = translateEntries rt nonInteractive before
    ++ (if nonInteractive then [prefix k +:+ k; valueToken rt v]
        else [prefix k +:+ k +:+ " " +:+ JSON_stringify rt v])
    ++ translateEntries rt nonInteractive after
  ∧ translateEntries rt nonInteractive (before ++ ("_", v) :: after)
    = translateEntries rt nonInteractive before ++ translateEntries rt nonInteractive after
  ∧ translateEntries rt nonInteractive (before ++ (k, AUndef) :: after)
    = translateEntries rt nonInteractive before ++ translateEntries rt nonInteractive after.
Proof.
  intros Hk Hv. rewrite !translateEntries_app, !translateEntries_cons.
  unfold pushFlag. rewrite (bool_decide_true (k ≠ "_")) by done.
  rewrite (bool_decide_false ("_" ≠ "_")) by (intros H; apply H; reflexivity).
  cbn [andb defined]. repeat split.
  destruct v as [|b| | | |], nonInteractive; try discriminate Hv; reflexivity.
Qed.

(** An argument that does not begin with a dash is positional and is never
    the separator. *)
Lemma classify_plain (arg : string) :
  starts_with_dash arg = false → classify arg = Positional ∧ arg ≠ "--".
Proof.
  unfold starts_with_dash, classify. intros Hplain. split.
  - destruct (chars arg) as [|c s]; [done|].
    cbn in Hplain. unfold is_char in Hplain. apply bool_decide_eq_false in Hplain.
    cbn. unfold is_char. rewrite (bool_decide_false ("-"%char = c)) by congruence.
    destruct s; cbn; unfold is_char;
      rewrite ?(bool_decide_false (c = "-"%char)) by done; done.
  - intros ->. discriminate Hplain.
Qed.

Lemma plain_not_flag (arg : string) :
  starts_with_dash arg = false → looks_like_flag arg = false.
Proof.
  unfold starts_with_dash, looks_like_flag.
  destruct (chars arg) as [|c [|d s]]; cbn; try done. by intros ->.
Qed.

Lemma parse_args_plain (argv : props) (plain rest : list string) :
  forallb (λ a, negb (starts_with_dash a)) plain = true →
  parse_args argv (plain ++ rest)
  = parse_args (foldl (λ acc a, push_positional acc (coerce (AStr a))) argv plain) rest.
Proof.
  revert argv. induction plain as [|a plain IH]; intros argv Hplain; [done|].
  cbn in Hplain. apply andb_prop in Hplain as [Ha Hplain].
  apply negb_true_iff in Ha. destruct (classify_plain a Ha) as [Hc _].
  cbn [app parse_args foldl]. unfold parse_arg at 1. rewrite Hc. cbn.
  rewrite <- IH by done. by destruct (plain ++ rest).
Qed.

Lemma span_plain (plain : list string) (p : string) :
  forallb (λ a, negb (starts_with_dash a)) plain = true → p ≠ "--" →
  split_at_double_dash (plain ++ ["--settings"; p]) = (plain ++ ["--settings"; p], []).
Proof.
  intros Hplain Hp. unfold split_at_double_dash.
  assert (Hspan : span (λ a, negb (bool_decide (a = "--"))) (plain ++ ["--settings"; p])
                  = (plain ++ ["--settings"; p], [])).
  { induction plain as [|a plain IH]; cbn.
    - by rewrite (bool_decide_false (p = "--")).
    - cbn in Hplain. apply andb_prop in Hplain as [Ha Hplain].
      apply negb_true_iff in Ha. destruct (classify_plain a Ha) as [_ Hne].
      by rewrite (bool_decide_false (a = "--")), IH. }
  by rewrite Hspan.
Qed.

Lemma positional_shape (items : list argval) (plain : list string) :
  foldl (λ acc a, push_positional acc (coerce (AStr a))) [("_", AArr items)] plain
  = [("_", AArr (items ++ ((λ a, coerce (AStr a)) <$> plain)))].
Proof.
  revert items. induction plain as [|a plain IH]; intros items.
  - cbn. by rewrite app_nil_r.
  - cbn [foldl fmap list_fmap].
    change (push_positional [("_", AArr items)] (coerce (AStr a)))
      with [("_", AArr (items ++ [coerce (AStr a)]))].
    rewrite IH. by rewrite <- app_assoc.
Qed.

(** What the parser makes of positional arguments followed by the
    launcher's own flag. *)
Lemma minimist_plain_settings (plain : list string) (p : string) :
  forallb (λ a, negb (starts_with_dash a)) plain = true →
  starts_with_dash p = false →
  minimist (plain ++ ["--settings"; p])
  = Some [("_", AArr ((λ a, coerce (AStr a)) <$> plain)); ("settings", coerce (AStr p))].
Proof.
  intros Hplain Hp. destruct (classify_plain p Hp) as [_ Hne].
  unfold minimist, parse. rewrite span_plain by done.
  rewrite parse_args_plain, positional_shape by done.
  cbn -[parse_arg coerce fmap].
  assert (Harg : ∀ items,
    parse_arg [("_", AArr items)] "--settings" (Some p)
    = Returns ([("_", AArr items); ("settings", coerce (AStr p))], true)).
  { intros items. unfold parse_arg. cbn -[coerce looks_like_flag].
    by rewrite (plain_not_flag p Hp). }
  by rewrite Harg.
Qed.

(** The translation of such a command line keeps the launcher's flag and
    nothing else. *)
Lemma translate_plain_settings (nonInteractive : bool) (items : list argval) (p : string) :
  translate rt nonInteractive [("_", AArr items); ("settings", coerce (AStr p))]
  = if nonInteractive then ["--settings"; valueToken rt (coerce (AStr p))]
    else ["--settings " +:+ JSON_stringify rt (coerce (AStr p))].
Proof.
  unfold coerce. destruct (isNumber p), nonInteractive; reflexivity.
Qed.

End WithRuntime.

Lemma value_flags_witness :
  translateEntries canonical_runtime true
    ([("_", AArr [])] ++ ("model", AStr "opus") :: [("v", ABool true)])
  = translateEntries canonical_runtime true [("_", AArr [])]
    ++ ["--model"; "opus"] ++ translateEntries canonical_runtime true [("v", ABool true)].
Proof.
  exact (proj1 (value_flags canonical_runtime true [("_", AArr [])] [("v", ABool true)]
                  "model" (AStr "opus") ltac:(done) eq_refl)).
Defined.

End TranslationFacts.

(** ** More on the launcher *)

Module LifecycleFacts.

Import Launcher LauncherFacts.

Ltac unfold_launch :=
  unfold launch, executeCodeCommand, do_spawn, call, when, forwardStdout;
  unfold mbind, M_bind, mret, M_ret, read, perform, args_push, on, throw, start;
  cbn.

(** Case analysis on everything a launch depends on, after the parser. *)
Ltac launch_cases w :=
  destruct (claudePath w) eqn:Hcmd; cbn;
  try match goal with
      | |- context [spawn w ?call] => destruct (spawn w call) as [[[] []]|] eqn:Hspawn
      end; cbn;
  destruct (nonInteractive w) eqn:Hni; cbn;
  try match goal with
      | |- context [process_env w !! "CCR_OUTPUT_FILE"] =>
          destruct (process_env w !! "CCR_OUTPUT_FILE") eqn:Hout
      end; cbn;
  try case_bool_decide; cbn;
  try match goal with
      | |- context [openSync w ?p] => destruct (openSync w p) eqn:Hopen
      end; cbn.

(** *** Positional arguments (line 108) *)

(** X5.  Positional arguments never reach the child.  When no argument
    begins with a dash (a prompt, say), the parser files them all under [_],
    the loop skips that entry, and [spawn] receives the launcher's own
    [--settings] flag and nothing else.  The parser is assumed to do with
    this command line what the model says. *)
Theorem positional_arguments_never_reach_the_child
    (w : World) (presetName : option string) (c : Caller) :
  minimist w (args c ++ ["--settings"; settingsFile w presetName c])
  = Minimist.minimist (args c ++ ["--settings"; settingsFile w presetName c]) →
  forallb (λ a, negb (Str.starts_with_dash a)) (args c) = true →
  Str.starts_with_dash (settingsFile w presetName c) = false →
  ∃ call, Spawn call ∈ effects (launch w presetName c).2
          ∧ argv call
            = if nonInteractive w
              then ["--settings";
                    Flags.valueToken (runtime w)
                      (Minimist.coerce (Minimist.AStr (settingsFile w presetName c)))]
              else ["--settings " +:+
                    Json.JSON_stringify (runtime w)
                      (Minimist.coerce (Minimist.AStr (settingsFile w presetName c)))].
Proof.
  intros Hminimist Hplain Hpath.
  rewrite (TranslationFacts.minimist_plain_settings _ _ Hplain Hpath) in Hminimist.
  pose proof (launch_spawns w presetName c _ Hminimist) as Hspawn.
  eexists. split; [apply list_elem_of_lookup; exists 2; exact Hspawn|].
  cbn [argv]. apply TranslationFacts.translate_plain_settings.
Qed.

Lemma positional_arguments_never_reach_the_child_witness :
  ∃ call, Spawn call ∈ effects (launch Scenario.automation None
                                   (Scenario.request ["explain this repository"])).2
          ∧ argv call = ["--settings"; "/tmp/claude-code-router/ccr-settings.json"].
Proof.
  exact (positional_arguments_never_reach_the_child Scenario.automation None
           (Scenario.request ["explain this repository"]) eq_refl eq_refl eq_refl).
Defined.

(** *** When the function returns *)

Lemma launch_result (w : World) (presetName : option string) (c : Caller) :
  (launch w presetName c).1
  = match minimist w (args c ++ ["--settings"; settingsFile w presetName c]) with
    | None => None
    | Some argsObj =>
        match claudePath w with
        | VStr _ =>
            match spawn w (spawnCall w argsObj) with
            | None => None
            | Some child =>
                if nonInteractive w && stdout child then
                  match process_env w !! "CCR_OUTPUT_FILE" with
                  | Some path =>
                      if bool_decide (path = "") then Some ()
                      else match openSync w path with Some _ => Some () | None => None end
                  | None => Some ()
                  end
                else Some ()
            end
        | _ => None
        end
    end.
Proof.
  unfold spawnCall. unfold_launch.
  destruct (minimist w (_ ++ _)) as [argsObj|]; cbn; [|done].
  launch_cases w; reflexivity.
Qed.

(** X6.  Once the configuration is read and the payload stored (lines
    33-87), [executeCodeCommand] returns exactly when the arguments parse,
    the command is a string, [spawn] does not throw and, where the child's
    output goes to a file, the file can be opened.  In every other case it
    throws; and whether it returns or throws, it has written the payload and
    raised the reference count first and has done nothing since that lowers
    it again, so that each of these throws comes after the increment.  When
    it throws, neither closing listener is installed. *)
Theorem executeCodeCommand_returns_iff
    (w : World) (presetName : option string) (c : Caller) :
  ((launch w presetName c).1 = Some ()
   ↔ ∃ argsObj cmd child,
       minimist w (args c ++ ["--settings"; settingsFile w presetName c]) = Some argsObj
       ∧ claudePath w = VStr cmd
       ∧ spawn w (spawnCall w argsObj) = Some child
       ∧ (nonInteractive w && stdout child = true →
          ∀ path, process_env w !! "CCR_OUTPUT_FILE" = Some path → path ≠ "" →
                  is_Some (openSync w path)))
  ∧ (∃ tail, effects (launch w presetName c).2
             = WriteSettings (settingsFlag w presetName c)
               :: IncrementReferenceCount :: tail
             ∧ filter is_lifecycle tail = [])
  ∧ ((launch w presetName c).1 = None →
     (OnError ∉ listeners (launch w presetName c).2)
     ∧ (OnClose ∉ listeners (launch w presetName c).2)).
Proof.
  split; [|split].
  - rewrite launch_result. split.
    + destruct (minimist w (_ ++ _)) as [argsObj|]; [|done].
      destruct (claudePath w) as [| | | |cmd| |]; try done.
      destruct (spawn w (spawnCall w argsObj)) as [child|] eqn:Hspawn; [|done].
      intros Hr. exists argsObj, cmd, child.
      split; [done|]. split; [done|]. split; [done|].
      intros Hfile path Hpath Hne. rewrite Hfile, Hpath in Hr.
      rewrite bool_decide_false in Hr by done.
      by destruct (openSync w path).
    + intros (argsObj & cmd & child & -> & -> & -> & Hfile).
      destruct (nonInteractive w && stdout child); [|done].
      destruct (process_env w !! "CCR_OUTPUT_FILE") as [path|]; [|done].
      case_bool_decide as Hne; [done|].
      by destruct (Hfile eq_refl path eq_refl Hne) as [fd ->].
  - destruct (launch_spec w presetName c) as (_ & _ & _ & tail & He & Hq & _).
    by exists tail.
  - intros Hr. pose proof (launch_threw w presetName c Hr) as Hdeaf.
    rewrite forallb_forall in Hdeaf.
    split; intros Hin; apply list_elem_of_In in Hin; by apply Hdeaf in Hin.
Qed.

Lemma executeCodeCommand_returns_iff_witness :
  (launch Scenario.automation_to_file None (Scenario.request ["-p"; "hello"])).1 = Some ().
Proof.
  apply (proj2 (proj1 (executeCodeCommand_returns_iff Scenario.automation_to_file None
                         (Scenario.request ["-p"; "hello"])))).
  eexists _, "claude", {| stdin := true; stdout := true |}.
  split; [vm_compute; reflexivity|]. split; [reflexivity|]. split; [reflexivity|].
  intros _ path Hpath _. vm_compute. by eexists.
Defined.

(** *** What the listeners never do *)

Lemma setup_effect_from_launch (w : World) (presetName : option string) (c : Caller)
    (events : list event) (e : effect) :
  is_setup_effect e = true →
  e ∈ effects (run w presetName c events) ↔ e ∈ effects (launch w presetName c).2.
Proof.
  intros He. pose proof (run_setup_frame w (launch w presetName c).2 events) as Hf.
  fold (run w presetName c events) in Hf.
  split; intros Hin.
  - assert (e ∈ filter is_setup_effect (effects (run w presetName c events))) as H
      by (apply list_elem_of_filter; by rewrite He).
    rewrite Hf in H. by apply list_elem_of_filter in H as [_ ?].
  - assert (e ∈ filter is_setup_effect (effects (launch w presetName c).2)) as H
      by (apply list_elem_of_filter; by rewrite He).
    rewrite <- Hf in H. by apply list_elem_of_filter in H as [_ ?].
Qed.

(** *** The call of [spawn] (lines 92-141) *)

Lemma launch_spawn_calls (w : World) (presetName : option string) (c : Caller) :
  filter is_spawn (effects (launch w presetName c).2)
  = match minimist w (args c ++ ["--settings"; settingsFile w presetName c]) with
    | Some argsObj => [Spawn (spawnCall w argsObj)]
    | None => []
    end.
Proof.
  unfold spawnCall. unfold_launch.
  destruct (minimist w (_ ++ _)) as [argsObj|]; cbn; [|done].
  launch_cases w; reflexivity.
Qed.

Lemma filter_spawn_setup (es : list effect) :
  filter is_spawn (filter is_setup_effect es) = filter is_spawn es.
Proof.
  induction es as [|e es IH]; [done|].
  rewrite (filter_cons (λ e, is_setup_effect e)).
  destruct (decide (is_setup_effect e)) as [Hsetup|Hsetup];
    rewrite !(filter_cons (λ e, is_spawn e));
    destruct (decide (is_spawn e)) as [Hspawn|Hspawn]; rewrite ?IH; try done.
  by destruct e.
Qed.

(** X7.  Every run begins with the payload written and the reference count
    raised, in this order; whatever calls of [spawn] there are come after
    these two.  There is at most one, exactly when the arguments parse, and
    no listener ever adds another.  The child gets a shell and inherited
    streams in interactive mode, no shell and piped input and output in
    non-interactive mode. *)
Theorem spawn_called_at_most_once
    (w : World) (presetName : option string) (c : Caller) (events : list event) :
  (∃ rest,
     effects (run w presetName c events)
     = WriteSettings (settingsFlag w presetName c) :: IncrementReferenceCount :: rest
     ∧ filter is_spawn rest
       = match minimist w (args c ++ ["--settings"; settingsFile w presetName c]) with
         | Some argsObj => [Spawn (spawnCall w argsObj)]
         | None => []
         end)
  ∧ ∀ call, Spawn call ∈ effects (run w presetName c events) →
            shell call = negb (nonInteractive w)
            ∧ stdioConfig call = (if nonInteractive w then PipePipeInherit else Inherit)
            ∧ command call = claudePath w.
Proof.
  assert (Hspawns : filter is_spawn (effects (run w presetName c events))
                    = match minimist w (args c ++ ["--settings"; settingsFile w presetName c]) with
                      | Some argsObj => [Spawn (spawnCall w argsObj)]
                      | None => []
                      end).
  { rewrite <- filter_spawn_setup. unfold run. rewrite run_setup_frame.
    rewrite filter_spawn_setup. apply launch_spawn_calls. }
  split.
  - assert (∃ rest, effects (run w presetName c events)
                    = WriteSettings (settingsFlag w presetName c)
                      :: IncrementReferenceCount :: rest) as [rest Hrest].
    { unfold run.
      destruct (run_frame w (launch w presetName c).2 events) as (_ & _ & es & -> & _).
      destruct (launch_spec w presetName c) as (_ & _ & _ & tail & -> & _).
      by exists (tail ++ es). }
    exists rest. split; [exact Hrest|].
    rewrite Hrest in Hspawns. exact Hspawns.
  - intros call Hin.
    assert (Spawn call ∈ filter is_spawn (effects (run w presetName c events))) as Hf
      by by apply list_elem_of_filter.
    rewrite Hspawns in Hf.
    destruct (minimist w (_ ++ _)) as [argsObj|]; [|by apply elem_of_nil in Hf].
    apply list_elem_of_singleton in Hf. by injection Hf as ->.
Qed.

Lemma spawn_called_at_most_once_witness :
  let call := {| command := VStr "claude";
                 argv := ["-p"; "hello"; "--settings";
                          "/tmp/claude-code-router/ccr-settings.json"];
                 env := {[ "PATH" := "/usr/bin" ]};
                 stdioConfig := PipePipeInherit;
                 shell := false |} in
  Spawn call ∈ effects (run Scenario.automation None (Scenario.request ["-p"; "hello"]) [])
  ∧ shell call = negb (nonInteractive Scenario.automation)
  ∧ stdioConfig call
    = (if nonInteractive Scenario.automation then PipePipeInherit else Inherit)
  ∧ command call = claudePath Scenario.automation.
Proof.
  intros call.
  assert (Hin : Spawn call ∈ effects (run Scenario.automation None
                                        (Scenario.request ["-p"; "hello"]) [])).
  { apply list_elem_of_lookup. exists 2. vm_compute. reflexivity. }
  split; [exact Hin|].
  exact (proj2 (spawn_called_at_most_once Scenario.automation None
                  (Scenario.request ["-p"; "hello"]) []) call Hin).
Defined.

(** *** The reference count (lines 92, 178, 183) *)

(** X8.  In every invocation and whatever events follow, the reference count
    is raised exactly once and lowered at most once.  The lifecycle of a run
    is the increment alone while the host is running; the increment and an
    uncaught exception when a throw ended it (a failing call on the output
    file in a listener, or an error event nobody listens for), and then the
    count stays raised; or the increment, the decrement and [process.exit]
    (with the shutdown of the service in between on a close event) when one
    of the two closing listeners ended it, which needs [executeCodeCommand]
    to have returned. *)
Theorem reference_count_raised_once_lowered_at_most_once
    (w : World) (presetName : option string) (c : Caller) (events : list event) :
  let h := run w presetName c events in
  increments h = 1
  ∧ (decrements h ≤ 1)%nat
  ∧ (filter is_lifecycle (effects h) = [IncrementReferenceCount]
     ∧ exited h = false ∧ decrements h = 0
     ∨ filter is_lifecycle (effects h) = [IncrementReferenceCount; UncaughtException]
       ∧ exited h = true ∧ decrements h = 0
     ∨ (launch w presetName c).1 = Some () ∧ exited h = true ∧ decrements h = 1
       ∧ (filter is_lifecycle (effects h)
          = [IncrementReferenceCount; DecrementReferenceCount; ProcessExit 1]
          ∨ ∃ code, filter is_lifecycle (effects h)
                    = [IncrementReferenceCount; DecrementReferenceCount; CloseService;
                       ProcessExit code])).
Proof.
  intros h. subst h.
  destruct (run_lifecycle w presetName c events) as (e & Hf & Hx & Hthrew).
  destruct (run_counts w presetName c events) as (e' & Hi & Hd & Hx' & _).
  assert (has_ended e' = has_ended e) as Hsame by by rewrite <- Hx, <- Hx'.
  assert (decrements (run w presetName c events)
          = if by_closing_listener e then 1 else 0) as Hd'.
  { unfold decrements. rewrite <- filter_decrement_lifecycle, Hf. by destruct e. }
  split; [exact Hi|]. split; [rewrite Hd'; destruct (by_closing_listener e); lia|].
  rewrite Hf, Hx, Hd'.
  assert (by_closing_listener e = true → (launch w presetName c).1 = Some ()) as Hret.
  { intros Hc. destruct (launch w presetName c).1 as [[]|]; [done|].
    by rewrite Hthrew in Hc. }
  destruct e as [| | |code]; cbn.
  - by left.
  - right. by left.
  - right. right. split; [by apply Hret|]. split; [done|]. split; [done|]. by left.
  - right. right. split; [by apply Hret|]. split; [done|]. split; [done|].
    right. by exists code.
Qed.

(** *** Events *)

Lemma body_stream_alive (w : World) (l : listener) (ev : event) (h : Host) :
  (∀ n e, fs_throws w n e = false) → is_stream_event ev = true → exited h = false →
  (body w l ev h).1 = Some () ∧ exited (body w l ev h).2 = false.
Proof.
  intros Hfs Hev. destruct h as [c es ls ex]. cbn [exited]. intros ->.
  destruct l, ev; try discriminate Hev;
    unfold body, fs, call, throw, perform, mbind, M_bind, mret, M_ret; cbn;
    rewrite ?Hfs; cbn; rewrite ?Hfs; done.
Qed.

Lemma emit_stream_alive (w : World) (ls : list listener) (ev : event) (h : Host) :
  (∀ n e, fs_throws w n e = false) → is_stream_event ev = true → exited h = false →
  exited (emit w ls ev h) = false.
Proof.
  intros Hfs Hev. revert h. induction ls as [|l ls IH]; intros h He; [done|].
  cbn [emit]. rewrite He.
  destruct (body_stream_alive w l ev h Hfs Hev He) as [Hr Hx].
  destruct (body w l ev h) as [[[]|] h']; [|done]. by apply IH.
Qed.

Lemma run_stream_alive (w : World) (h : Host) (pre : list event) :
  (∀ n e, fs_throws w n e = false) → forallb is_stream_event pre = true →
  exited h = false → exited (foldl (deliver w) h pre) = false.
Proof.
  intros Hfs. revert h. induction pre as [|ev pre IH]; intros h Hpre He; [done|].
  cbn in Hpre. apply andb_prop in Hpre as [Hev Hpre].
  cbn [foldl]. apply IH; [done|].
  unfold deliver. rewrite He.
  destruct ev; try discriminate Hev; by apply emit_stream_alive.
Qed.

(** Events of the streams never reach the two closing listeners. *)
Lemma body_stream_lifecycle (w : World) (l : listener) (ev : event) (h : Host) :
  is_stream_event ev = true →
  filter is_lifecycle (effects (body w l ev h).2) = filter is_lifecycle (effects h)
  ∧ exited (body w l ev h).2 = exited h.
Proof.
  intros Hev. destruct h as [c es ls ex].
  destruct l, ev; try discriminate Hev; run_body;
    rewrite ?filter_app; cbn; by rewrite ?app_nil_r.
Qed.

Lemma emit_stream_lifecycle (w : World) (ls : list listener) (ev : event) (h : Host) :
  is_stream_event ev = true → exited h = false →
  ∃ e, filter is_lifecycle (effects (emit w ls ev h))
       = filter is_lifecycle (effects h) ++ ending_effects e
       ∧ exited (emit w ls ev h) = has_ended e
       ∧ by_closing_listener e = false.
Proof.
  intros Hev. revert h. induction ls as [|l ls IH]; intros h He.
  { exists Running. cbn. by rewrite app_nil_r. }
  cbn [emit]. rewrite He.
  destruct (body_stream_lifecycle w l ev h Hev) as [Hf Hx]. rewrite He in Hx.
  destruct (body w l ev h) as [[[]|] h']; cbn [snd] in *.
  - destruct (IH h' Hx) as (e & Hf' & Hx' & Hc). exists e. by rewrite Hf', Hf.
  - rewrite Hx. exists Crashed. destruct (crash_lifecycle h') as [-> ->]. by rewrite Hf.
Qed.

Lemma run_stream_lifecycle (w : World) (h : Host) (pre : list event) :
  forallb is_stream_event pre = true → exited h = false →
  ∃ e, filter is_lifecycle (effects (foldl (deliver w) h pre))
       = filter is_lifecycle (effects h) ++ ending_effects e
       ∧ exited (foldl (deliver w) h pre) = has_ended e
       ∧ by_closing_listener e = false.
Proof.
  revert h. induction pre as [|ev pre IH]; intros h Hpre He.
  { exists Running. cbn. by rewrite app_nil_r. }
  cbn in Hpre. apply andb_prop in Hpre as [Hev Hpre]. cbn [foldl].
  assert (∃ e, filter is_lifecycle (effects (deliver w h ev))
               = filter is_lifecycle (effects h) ++ ending_effects e
               ∧ exited (deliver w h ev) = has_ended e
               ∧ by_closing_listener e = false) as (e & Hf & Hx & Hc).
  { unfold deliver. rewrite He.
    destruct ev; try discriminate Hev; by apply emit_stream_lifecycle. }
  destruct (has_ended e) eqn:Hended.
  - rewrite run_exited by done. exists e. by rewrite Hended.
  - assert (e = Running) as -> by by destruct e.
    cbn in Hf. rewrite app_nil_r in Hf.
    destruct (IH _ Hpre Hx) as (e' & Hf' & Hx' & Hc').
    exists e'. by rewrite Hf', Hf.
Qed.

(** X9.  Traffic on the streams (end of the parent's input, output of the
    child) never touches the reference count or the service and never calls
    [process.exit], and it leaves the listeners as the launch installed
    them.  It ends the host in one way only: a call on the output file that
    throws, which nothing catches.  Where no such call throws, the host is
    alive after any number of such events. *)
Theorem stream_events_end_the_host_only_by_throwing
    (w : World) (presetName : option string) (c : Caller) (pre : list event) :
  forallb is_stream_event pre = true →
  let h := run w presetName c pre in
  listeners h = listeners (launch w presetName c).2
  ∧ (filter is_lifecycle (effects h) = [IncrementReferenceCount] ∧ exited h = false
     ∨ filter is_lifecycle (effects h) = [IncrementReferenceCount; UncaughtException]
       ∧ exited h = true)
  ∧ ((∀ n e, fs_throws w n e = false) → exited h = false).
Proof.
  intros Hpre h. subst h. unfold run.
  destruct (launch_spec w presetName c) as (_ & He & _).
  split; [by destruct (run_frame w (launch w presetName c).2 pre) as (_ & -> & _)|].
  split.
  - destruct (run_stream_lifecycle w _ pre Hpre He) as (e & Hf & Hx & Hc).
    rewrite launch_lifecycle in Hf. rewrite Hf, Hx.
    destruct e; try discriminate Hc; cbn; [by left|by right].
  - intros Hfs. by apply run_stream_alive.
Qed.

Lemma stream_events_end_the_host_only_by_throwing_witness :
  exited (run Scenario.automation_to_file None (Scenario.request ["-p"; "hello"])
            [StdoutData "a"; StdinEnd; StdoutData "b"]) = false.
Proof.
  exact (proj2 (proj2 (stream_events_end_the_host_only_by_throwing
                         Scenario.automation_to_file None
                         (Scenario.request ["-p"; "hello"])
                         [StdoutData "a"; StdinEnd; StdoutData "b"] eq_refl))
           (λ _ _, eq_refl)).
Defined.




(** *** The streams (lines 143-171) *)

Lemma launch_interactive (w : World) (presetName : option string) (c : Caller) :
  nonInteractive w = false →
  filter is_stream_effect (effects (launch w presetName c).2) = []
  ∧ filter is_stream_listener (listeners (launch w presetName c).2) = [].
Proof.
  intros Hmode. unfold_launch.
  destruct (minimist w (_ ++ _)) as [argsObj|]; cbn; [|done].
  launch_cases w; try discriminate Hmode; done.
Qed.

(** X11.  In interactive mode the launcher leaves the streams alone, whatever
    the environment says: it pipes nothing, opens no output file (even when
    [CCR_OUTPUT_FILE] is set) and installs no listener besides the two that
    end the host. *)
Theorem interactive_mode_leaves_streams_alone
    (w : World) (presetName : option string) (c : Caller) (events : list event) :
  nonInteractive w = false →
  filter is_stream_effect (effects (run w presetName c events)) = []
  ∧ filter is_stream_listener (listeners (run w presetName c events)) = [].
Proof.
  intros Hmode. destruct (launch_interactive w presetName c Hmode) as [He Hl].
  unfold run. split.
  - by rewrite run_closing.
  - by destruct (run_frame w (launch w presetName c).2 events) as (_ & -> & _).
Qed.

Lemma interactive_mode_leaves_streams_alone_witness :
  let w := Scenario.world ∅ {[ "CCR_OUTPUT_FILE" := "/var/log/ccr/out.jsonl" ]}
             (λ _, Some 3%Z) in
  let h := run w None (Scenario.request ["-p"; "hello"])
             [StdoutData "chunk"; ChildClose (Some 0%Z)] in
  filter is_stream_effect (effects h) = []
  ∧ filter is_stream_listener (listeners h) = [].
Proof.
  intros w h.
  exact (interactive_mode_leaves_streams_alone w None (Scenario.request ["-p"; "hello"])
           [StdoutData "chunk"; ChildClose (Some 0%Z)] eq_refl).
Defined.

(** How the child's output is forwarded, read off the effects of the
    launch. *)
Lemma launch_forwarding (w : World) (presetName : option string) (c : Caller) :
  (∀ path, OpenSync path ∈ effects (launch w presetName c).2 →
     nonInteractive w = true
     ∧ process_env w !! "CCR_OUTPUT_FILE" = Some path ∧ path ≠ ""
     ∧ (PipeChildStdoutToStdout ∉ effects (launch w presetName c).2)
     ∧ ((launch w presetName c).1 = Some () →
        ∃ outputFd ls,
          openSync w path = Some outputFd
          ∧ listeners (launch w presetName c).2
            = ls ++ [OnStdoutData outputFd; OnCloseOutput outputFd; OnError; OnClose]
          ∧ (ls = [] ∨ ls = [OnStdinEnd])))
  ∧ (PipeChildStdoutToStdout ∈ effects (launch w presetName c).2 →
     nonInteractive w = true
     ∧ (process_env w !! "CCR_OUTPUT_FILE" = None
        ∨ process_env w !! "CCR_OUTPUT_FILE" = Some "")
     ∧ ∀ outputFd, OnStdoutData outputFd ∉ listeners (launch w presetName c).2).
Proof.
  unfold_launch.
  destruct (minimist w (_ ++ _)) as [argsObj|]; cbn.
  2: { split; [intros path Hin|intros Hin];
       repeat (apply elem_of_cons in Hin as [Hin|Hin]; [discriminate Hin|]);
       by apply elem_of_nil in Hin. }
  launch_cases w.
  all: split; [intros path Hin|intros Hin].
  all: repeat (apply elem_of_cons in Hin as [Hin|Hin];
               [first [discriminate Hin|injection Hin as <-]|]);
       try by apply elem_of_nil in Hin.
  all: subst; repeat split; try done; eauto.
  all: try (intros Hp;
            repeat (apply elem_of_cons in Hp as [Hp|Hp]; [discriminate Hp|]);
            (by apply elem_of_nil in Hp)).
  all: try (intros _; eexists _, []; repeat split; eauto; fail).
  all: try (intros _; eexists _, [OnStdinEnd]; repeat split; eauto; fail).
  all: try (intros outputFd Hp;
            repeat (apply elem_of_cons in Hp as [Hp|Hp]; [discriminate Hp|]);
            (by apply elem_of_nil in Hp)).
Qed.

(** The listeners of a launch that returned without opening an output
    file. *)
Lemma launch_without_file (w : World) (presetName : option string) (c : Caller) :
  (launch w presetName c).1 = Some () →
  (∀ path, OpenSync path ∉ effects (launch w presetName c).2) →
  ∃ ls, listeners (launch w presetName c).2 = ls ++ [OnError; OnClose]
        ∧ (ls = [] ∨ ls = [OnStdinEnd]).
Proof.
  unfold_launch.
  destruct (minimist w (_ ++ _)) as [argsObj|]; cbn; [|done].
  launch_cases w; intros Hr Hnone; try discriminate Hr.
  all: try (by exists []; split; [|left]).
  all: try (by exists [OnStdinEnd]; split; [|right]).
  all: exfalso; eapply Hnone; repeat constructor.
Qed.

Ltac at_host h He Hl :=
  let cl := fresh "cl" in let es := fresh "es" in
  let lsn := fresh "lsn" in let ex := fresh "ex" in
  destruct h as [cl es lsn ex]; cbn [exited listeners effects] in He, Hl |- *;
  subst lsn ex.

(** X12.  Output to a file.  When the launcher opened an output file and
    returned, then on a running host every chunk the child prints is written
    to that file and then flushed to disk, with nothing else done; a write or
    a flush that throws ends the host on the spot, by an exception nobody
    catches.  When the child closes, the file is closed before the reference
    count is lowered, the service shut down and the host ended; a close of
    the file that throws ends the host before the count is lowered. *)
Theorem output_file_written_flushed_and_closed
    (w : World) (presetName : option string) (c : Caller) (path : string) :
  (launch w presetName c).1 = Some () →
  OpenSync path ∈ effects (launch w presetName c).2 →
  ∃ outputFd,
    openSync w path = Some outputFd
    ∧ ∀ events,
        exited (run w presetName c events) = false →
        let before := effects (run w presetName c events) in
        (∀ chunk,
           effects (run w presetName c (events ++ [StdoutData chunk]))
           = before
             ++ (if fs_throws w (length before) (WriteSync outputFd chunk)
                 then [WriteSync outputFd chunk; UncaughtException]
                 else if fs_throws w (S (length before)) (FsyncSync outputFd)
                      then [WriteSync outputFd chunk; FsyncSync outputFd;
                            UncaughtException]
                      else [WriteSync outputFd chunk; FsyncSync outputFd]))
        ∧ (∀ code,
             effects (run w presetName c (events ++ [ChildClose code]))
             = before
               ++ (if fs_throws w (length before) (CloseSync outputFd)
                   then [CloseSync outputFd; UncaughtException]
                   else [CloseSync outputFd; DecrementReferenceCount; CloseService;
                         ProcessExit (default 0%Z code)])).
Proof.
  intros Hr Hopen.
  destruct (proj1 (launch_forwarding w presetName c) path Hopen)
    as (_ & _ & _ & _ & Hfile).
  destruct (Hfile Hr) as (outputFd & ls & Hfd & Hls & Hstdin).
  exists outputFd. split; [exact Hfd|].
  intros events He before. subst before.
  assert (Hl : listeners (run w presetName c events)
               = ls ++ [OnStdoutData outputFd; OnCloseOutput outputFd; OnError; OnClose]).
  { unfold run. destruct (run_frame w (launch w presetName c).2 events) as (_ & -> & _).
    exact Hls. }
  split.
  - intros chunk. rewrite run_snoc.
    at_host (run w presetName c events) He Hl.
    unfold deliver. cbn [exited listeners].
    destruct Hstdin as [->| ->]; cbn [app emit exited];
      unfold body, fs, call, throw, perform, mbind, M_bind, mret, M_ret; cbn;
      repeat (rewrite ?length_app; cbn [length]; rewrite ?Nat.add_1_r;
              match goal with
              | |- context [fs_throws ?w ?n ?e] => destruct (fs_throws w n e) eqn:?
              end; cbn);
      by rewrite <- ?app_assoc.
  - intros code. rewrite run_snoc, <- exitCode_verbatim.
    at_host (run w presetName c events) He Hl.
    unfold deliver. cbn [exited listeners].
    destruct Hstdin as [->| ->]; cbn [app emit exited]; run_body;
      by rewrite <- ?app_assoc.
Qed.

Lemma output_file_written_flushed_and_closed_witness :
  let w := Scenario.unflushable_output in
  let c := Scenario.request ["-p"; "hello"] in
  effects (run w None c ([] ++ [StdoutData "chunk"]))
  = effects (run w None c []) ++ [WriteSync 3 "chunk"; FsyncSync 3; UncaughtException]
  ∧ effects (run w None c ([] ++ [ChildClose (Some 2%Z)]))
    = effects (run w None c [])
      ++ [CloseSync 3; DecrementReferenceCount; CloseService; ProcessExit 2].
Proof.
  intros w c.
  destruct (output_file_written_flushed_and_closed w None c "/dev/null")
    as (outputFd & Hfd & Hrun).
  - vm_compute. reflexivity.
  - apply list_elem_of_lookup. exists 4. vm_compute. reflexivity.
  - injection Hfd as <-.
    destruct (Hrun [] eq_refl) as [Hchunk Hclose].
    split; [exact (Hchunk "chunk")|exact (Hclose (Some 2%Z))].
Defined.

(** X13.  The child's output goes to a file or to the parent's output, never
    both.  A file is opened only in non-interactive mode and only under the
    non-empty path [CCR_OUTPUT_FILE] names; the output is piped to the
    parent's only in non-interactive mode with [CCR_OUTPUT_FILE] unset or
    empty.  No listener ever does either. *)
Theorem stdout_forwarding_is_exclusive
    (w : World) (presetName : option string) (c : Caller) (events : list event) :
  (∀ path, OpenSync path ∈ effects (run w presetName c events) →
     nonInteractive w = true
     ∧ process_env w !! "CCR_OUTPUT_FILE" = Some path ∧ path ≠ ""
     ∧ PipeChildStdoutToStdout ∉ effects (run w presetName c events))
  ∧ (PipeChildStdoutToStdout ∈ effects (run w presetName c events) →
     nonInteractive w = true
     ∧ (process_env w !! "CCR_OUTPUT_FILE" = None
        ∨ process_env w !! "CCR_OUTPUT_FILE" = Some "")).
Proof.
  destruct (launch_forwarding w presetName c) as [Hfile Hpipe]. split.
  - intros path Hin.
    apply (setup_effect_from_launch w presetName c events (OpenSync path) eq_refl) in Hin.
    destruct (Hfile path Hin) as (Hmode & Hpath & Hne & Hno & _).
    repeat split; try done. intros Hp.
    by apply (setup_effect_from_launch w presetName c events
                PipeChildStdoutToStdout eq_refl) in Hp.
  - intros Hin.
    apply (setup_effect_from_launch w presetName c events
             PipeChildStdoutToStdout eq_refl) in Hin.
    by destruct (Hpipe Hin) as (Hmode & Hpath & _).
Qed.

Lemma stdout_forwarding_is_exclusive_witness :
  let h := run Scenario.automation_to_file None (Scenario.request ["-p"; "hello"])
             [StdoutData "chunk"] in
  OpenSync "/var/log/ccr/out.jsonl" ∈ effects h
  ∧ nonInteractive Scenario.automation_to_file = true
  ∧ process_env Scenario.automation_to_file !! "CCR_OUTPUT_FILE"
    = Some "/var/log/ccr/out.jsonl"
  ∧ "/var/log/ccr/out.jsonl" ≠ ""
  ∧ PipeChildStdoutToStdout ∉ effects h.
Proof.
  intros h.
  assert (Hin : OpenSync "/var/log/ccr/out.jsonl" ∈ effects h).
  { apply list_elem_of_lookup. exists 4. vm_compute. reflexivity. }
  split; [exact Hin|].
  exact (proj1 (stdout_forwarding_is_exclusive Scenario.automation_to_file None
                  (Scenario.request ["-p"; "hello"]) [StdoutData "chunk"]) _ Hin).
Defined.

Lemma launch_stdin (w : World) (presetName : option string) (c : Caller) :
  (PipeStdinToChild ∈ effects (launch w presetName c).2 →
     nonInteractive w = true
     ∧ stream_effects (listeners (launch w presetName c).2) StdinEnd = [EndChildStdin])
  ∧ (PipeStdinToChild ∉ effects (launch w presetName c).2 →
     stream_effects (listeners (launch w presetName c).2) StdinEnd = []).
Proof.
  unfold_launch.
  destruct (minimist w (_ ++ _)) as [argsObj|]; cbn.
  2: { split; [intros Hin|done].
       repeat (apply elem_of_cons in Hin as [Hin|Hin]; [discriminate Hin|]).
       by apply elem_of_nil in Hin. }
  launch_cases w.
  all: split; [intros Hin|intros Hnone].
  all: try (repeat (apply elem_of_cons in Hin as [Hin|Hin]; [discriminate Hin|]);
            (by apply elem_of_nil in Hin)).
  all: try done.
  all: exfalso; apply Hnone; repeat constructor.
Qed.

Lemma stream_effects_cons (l : listener) (ls : list listener) (ev : event) :
  stream_effects (l :: ls) ev = stream_effects [l] ev ++ stream_effects ls ev.
Proof. unfold stream_effects. cbn. by rewrite app_nil_r. Qed.

(** On the end of the parent's input no listener calls the file system, so
    none can throw. *)
Lemma emit_stdin_end (w : World) (ls : list listener) (h : Host) :
  exited h = false →
  emit w ls StdinEnd h
  = {| caller := caller h; effects := effects h ++ stream_effects ls StdinEnd;
       listeners := listeners h; exited := false |}.
Proof.
  revert h. induction ls as [|l ls IH]; intros [c es lsn ex]; cbn [exited]; intros ->.
  { cbn. by rewrite app_nil_r. }
  rewrite (stream_effects_cons l ls). cbn [emit exited].
  destruct l; unfold body, perform, mret, M_ret; cbn [fst snd];
    rewrite IH by done; cbn; by rewrite ?app_nil_r, <- ?app_assoc.
Qed.

(** X14.  The end of the parent's input is passed on to the child exactly
    when the launcher piped the parent's input into it, which it does only
    in non-interactive mode: then, on a running host, the event ends the
    child's input and does nothing else.  Otherwise the event changes
    nothing. *)
Theorem stdin_end_is_passed_on_when_piped
    (w : World) (presetName : option string) (c : Caller) (events : list event) :
  (PipeStdinToChild ∈ effects (launch w presetName c).2 →
     nonInteractive w = true
     ∧ (exited (run w presetName c events) = false →
        effects (run w presetName c (events ++ [StdinEnd]))
        = effects (run w presetName c events) ++ [EndChildStdin]))
  ∧ (PipeStdinToChild ∉ effects (launch w presetName c).2 →
     run w presetName c (events ++ [StdinEnd]) = run w presetName c events).
Proof.
  assert (Hl : listeners (run w presetName c events) = listeners (launch w presetName c).2).
  { unfold run. by destruct (run_frame w (launch w presetName c).2 events) as (_ & -> & _). }
  destruct (launch_stdin w presetName c) as [Hpiped Hnot]. split.
  - intros Hin. destruct (Hpiped Hin) as [Hmode Hend].
    split; [exact Hmode|]. intros He.
    rewrite run_snoc. unfold deliver. rewrite He, emit_stdin_end by done.
    cbn [effects]. by rewrite Hl, Hend.
  - intros Hout. rewrite run_snoc. unfold deliver.
    destruct (exited (run w presetName c events)) eqn:He; [done|].
    rewrite emit_stdin_end, Hl, (Hnot Hout), app_nil_r by done.
    destruct (run w presetName c events). cbn in *. by subst.
Qed.

Lemma stdin_end_is_passed_on_when_piped_witness :
  let w := Scenario.automation in
  let c := Scenario.request ["-p"; "hello"] in
  PipeStdinToChild ∈ effects (launch w None c).2
  ∧ nonInteractive w = true
  ∧ effects (run w None c ([StdoutData "chunk"] ++ [StdinEnd]))
    = effects (run w None c [StdoutData "chunk"]) ++ [EndChildStdin].
Proof.
  intros w c.
  assert (Hin : PipeStdinToChild ∈ effects (launch w None c).2).
  { apply list_elem_of_lookup. exists 3. vm_compute. reflexivity. }
  split; [exact Hin|].
  destruct (proj1 (stdin_end_is_passed_on_when_piped w None c [StdoutData "chunk"]) Hin)
    as [Hmode Hend].
  split; [exact Hmode|]. exact (Hend eq_refl).
Defined.

(** *** The two closing listeners (lines 173-186) *)

Lemma emit_error_on_streams (w : World) (ls : list listener) (message : string) (h : Host) :
  forallb is_stream_listener ls = true → emit w ls (ChildError message) h = h.
Proof.
  revert h. induction ls as [|l ls IH]; intros h Hls; [done|].
  cbn in Hls. apply andb_prop in Hls as [Hl Hls].
  cbn [emit]. destruct (exited h); [done|].
  destruct l; try discriminate Hl; unfold body, mret, M_ret; by apply IH.
Qed.

Lemma alive_without_shutdown (w : World) (presetName : option string) (c : Caller)
    (events : list event) :
  exited (run w presetName c events) = false →
  CloseService ∉ effects (run w presetName c events).
Proof.
  intros He Hin.
  destruct (run_lifecycle w presetName c events) as (e & Hf & Hx & _).
  rewrite He in Hx. assert (e = Running) as -> by by destruct e.
  assert (CloseService ∈ filter is_lifecycle (effects (run w presetName c events))) as H
    by by apply list_elem_of_filter.
  rewrite Hf in H. cbn in H.
  apply elem_of_cons in H as [H|H]; [discriminate H|]. by apply elem_of_nil in H.
Qed.

(** X15.  The error listener (lines 173-180).  Once [executeCodeCommand]
    has returned, an error event of the child that reaches a running host
    makes it report the failure with the message of the error, print the
    hint how to install Claude Code, lower the reference count and exit with
    status 1, in this order; the service is not shut down, then or
    before. *)
Theorem error_listener_reports_and_exits
    (w : World) (presetName : option string) (c : Caller)
    (events : list event) (message : string) :
  (launch w presetName c).1 = Some () →
  exited (run w presetName c events) = false →
  let after := run w presetName c (events ++ [ChildError message]) in
  effects after
  = effects (run w presetName c events)
    ++ [ConsoleError ["Failed to start claude command:"; message];
        ConsoleLog ["Make sure Claude Code is installed: npm install -g @anthropic-ai/claude-code"];
        DecrementReferenceCount; ProcessExit 1]
  ∧ exited after = true
  ∧ CloseService ∉ effects after.
Proof.
  intros Hr He after. subst after.
  destruct (launch_returned w presetName c Hr) as (ls & Hls & Hstream).
  assert (Hl : listeners (run w presetName c events) = ls ++ [OnError; OnClose]).
  { unfold run. destruct (run_frame w (launch w presetName c).2 events) as (_ & -> & _).
    exact Hls. }
  pose proof (alive_without_shutdown w presetName c events He) as Hno.
  rewrite run_snoc.
  assert (Hstep : deliver w (run w presetName c events) (ChildError message)
                  = {| caller := caller (run w presetName c events);
                       effects := effects (run w presetName c events)
                         ++ [ConsoleError ["Failed to start claude command:"; message];
                             ConsoleLog [installHint];
                             DecrementReferenceCount; ProcessExit 1];
                       listeners := listeners (run w presetName c events);
                       exited := true |}).
  { unfold deliver. rewrite He, Hl, existsb_app. cbn [existsb listens_for_error].
    rewrite orb_true_r, emit_app, (emit_error_on_streams w ls message _ Hstream).
    cbn [emit]. rewrite He. run_body. by rewrite <- !app_assoc, Hl. }
  rewrite Hstep. cbn [effects exited]. split; [done|]. split; [done|].
  intros [Hin|Hin]%elem_of_app; [done|].
  repeat (apply elem_of_cons in Hin as [Hin|Hin]; [discriminate Hin|]).
  by apply elem_of_nil in Hin.
Qed.

Lemma error_listener_reports_and_exits_witness :
  let w := Scenario.automation in
  let c := Scenario.request ["-p"; "hello"] in
  let after := run w None c ([StdinEnd] ++ [ChildError "spawn claude ENOENT"]) in
  effects after
  = effects (run w None c [StdinEnd])
    ++ [ConsoleError ["Failed to start claude command:"; "spawn claude ENOENT"];
        ConsoleLog ["Make sure Claude Code is installed: npm install -g @anthropic-ai/claude-code"];
        DecrementReferenceCount; ProcessExit 1]
  ∧ exited after = true
  ∧ CloseService ∉ effects after.
Proof.
  intros w c.
  apply (error_listener_reports_and_exits w None c [StdinEnd] "spawn claude ENOENT").
  - vm_compute. reflexivity.
  - vm_compute. reflexivity.
Defined.

(** X16.  The close listener (lines 182-186).  Once [executeCodeCommand]
    has returned without opening an output file, a close event of the child
    that reaches a running host makes it lower the reference count, shut the
    service down and exit with the child's exit code, or with 0 when there
    is none (or when the code is 0), in this order and with nothing else
    done. *)
Theorem close_listener_decrements_shuts_down_and_exits
    (w : World) (presetName : option string) (c : Caller)
    (events : list event) (code : option Z) :
  (launch w presetName c).1 = Some () →
  (∀ path, OpenSync path ∉ effects (launch w presetName c).2) →
  exited (run w presetName c events) = false →
  let after := run w presetName c (events ++ [ChildClose code]) in
  effects after
  = effects (run w presetName c events)
    ++ [DecrementReferenceCount; CloseService; ProcessExit (default 0%Z code)]
  ∧ exited after = true.
Proof.
  intros Hr Hnone He after. subst after.
  destruct (launch_without_file w presetName c Hr Hnone) as (ls & Hls & Hstdin).
  assert (Hl : listeners (run w presetName c events) = ls ++ [OnError; OnClose]).
  { unfold run. destruct (run_frame w (launch w presetName c).2 events) as (_ & -> & _).
    exact Hls. }
  rewrite run_snoc, <- exitCode_verbatim.
  at_host (run w presetName c events) He Hl.
  unfold deliver. cbn [exited listeners].
  destruct Hstdin as [->| ->]; cbn [app emit exited]; run_body;
    by rewrite <- ?app_assoc.
Qed.

Lemma close_listener_decrements_shuts_down_and_exits_witness :
  let w := Scenario.automation in
  let c := Scenario.request ["-p"; "hello"] in
  let after := run w None c ([StdoutData "chunk"] ++ [ChildClose (Some 2%Z)]) in
  effects after
  = effects (run w None c [StdoutData "chunk"])
    ++ [DecrementReferenceCount; CloseService; ProcessExit 2]
  ∧ exited after = true.
Proof.
  intros w c.
  apply (close_listener_decrements_shuts_down_and_exits w None c
           [StdoutData "chunk"] (Some 2%Z)).
  - vm_compute. reflexivity.
  - intros path Hin. vm_compute in Hin.
    repeat (apply elem_of_cons in Hin as [Hin|Hin]; [discriminate Hin|]).
    by apply elem_of_nil in Hin.
  - vm_compute. reflexivity.
Defined.

(** The same command line against an output file that cannot be flushed:
    the first chunk of output ends the host, and the close event that
    follows finds nobody; the reference count stays raised. *)
Example flush_failure_ends_the_host :
  let h := run Scenario.unflushable_output None (Scenario.request ["-p"; "hello"])
             [StdoutData "chunk"; ChildClose (Some 0%Z)] in
  (launch Scenario.unflushable_output None (Scenario.request ["-p"; "hello"])).1 = Some ()
  ∧ drop 5 (effects h) = [WriteSync 3 "chunk"; FsyncSync 3; UncaughtException]
  ∧ increments h = 1 ∧ decrements h = 0 ∧ exited h = true.
Proof. vm_compute. done. Qed.

End LifecycleFacts.
